(** * hessian_estimator_full-eigen: a functional model of the pipeline

    The program [analysis/hessian_estimator_full-eigen.cc] is a linear script:
    it collects one gradient row per example, centres the rows, forms the
    covariance matrix, asks the library for an eigendecomposition, sorts the
    eigenpairs and dumps them as text.

    The scalar type [real] of the library is a compile-time typedef; here it
    is an arbitrary real field (exact arithmetic, totally ordered), so that
    the statements below are those of the algorithm and not of one rounding
    mode.  Loop counters, sizes and indices are natural numbers.  C arrays
    are sequences, read with [nth] and written with [set_nth]; every theorem
    carries the shape conditions under which all accesses are in range.
    Overflow of the [int] counters and the special values of IEEE arithmetic
    (infinities, NaN) are outside the model. *)

From HB Require Import structures.
Set Warnings "-notation-overridden,-ambiguous-paths,-rewrite-rw".
From mathcomp Require Import boot order algebra.
From Stdlib Require Import Lia String.

Set Implicit Arguments.
Unset Strict Implicit.
Unset Printing Implicit Defensive.

Import Order.TTheory GRing.Theory Num.Theory.

Local Open Scope ring_scope.

(** ** Counted loops *)

(** [for (int i = lo; i < hi; i++) s = body i s;] *)
Definition for_loop (S : Type) (lo hi : nat) (body : nat -> S -> S) (s : S) : S :=
  foldl (fun acc i => body i acc) s (iota lo (hi - lo)).

Section Pipeline.

Variable real : realFieldType.

(** ** Data model *)

(** [Vec]: a length and a buffer. *)
Record Vec : Type := mkVec { Vec_n : nat; Vec_ptr : seq real }.

(** [Mat]: [m] rows, [n] columns, [ptr] an array of rows. *)
Record Mat : Type := mkMat { Mat_m : nat; Mat_n : nat; Mat_ptr : seq (seq real) }.

(** [Parameters]: [n_data] groups, group [i] is a buffer [data[i]] of
    [size[i]] scalars. *)
Record Parameters : Type :=
  mkParameters { n_data : nat; size_ : seq nat; data : seq (seq real) }.

Definition wf_Vec (v : Vec) : bool := size (Vec_ptr v) == Vec_n v.

Definition wf_Mat (M : Mat) : bool :=
  (size (Mat_ptr M) == Mat_m M) && all (fun row => size row == Mat_n M) (Mat_ptr M).

Definition wf_Parameters (p : Parameters) : bool :=
  [&& size (size_ p) == n_data p, size (data p) == n_data p
    & [seq size g | g <- data p] == size_ p].

(** [M->ptr[i][j]] and [M->ptr[i][j] = x]. *)
Definition mget (M : seq (seq real)) (i j : nat) : real := nth 0 (nth [::] M i) j.

Definition mset (M : seq (seq real)) (i j : nat) (x : real) : seq (seq real) :=
  set_nth [::] M i (set_nth 0 (nth [::] M i) j x).

(** Column [j] of a matrix stored by rows. *)
Definition column (M : seq (seq real)) (j : nat) : seq real := [seq nth 0 row j | row <- M].

(** [new(allocator) Vec(n)] and [new(allocator) Mat(m, n)].  The library
    leaves the cells of a fresh buffer unspecified; the model fills them with
    0.  Every cell the program reads is written before. *)
Definition Vec_new (n : nat) : Vec := mkVec n (nseq n 0).

Definition Mat_new (m n : nat) : Mat := mkMat m n (nseq m (nseq n 0)).

(** [memset(buf, 0, sizeof(real) * n)]: the first [n] cells become 0. *)
Definition memset0 (buf : seq real) (n : nat) : seq real := nseq n 0 ++ drop n buf.

(** [memcpy(dst + off, src, n * sizeof(real))]. *)
Definition memcpy_at (dst : seq real) (off : nat) (src : seq real) (n : nat) : seq real :=
  take off dst ++ take n src ++ drop (off + n) dst.

(** Group buffers of the given sizes whose cells are all 0. *)
Definition zero_params (sizes : seq nat) : seq (seq real) := [seq nseq sz 0 | sz <- sizes].

(** What the program sends to a stream with [<<]. *)
Inductive out_item : Type :=
  | Real of real
  | Str of string
  | Endl.

(** ** Collecting the gradients (lines 88-133) *)

(** Lines 88-92: the number of parameters. *)
Definition count_params (der_params : Parameters) : nat :=
  for_loop 0 (n_data der_params)
    (fun i n_params => (n_params + nth 0%N (size_ der_params) i)%N) 0%N.

(** Lines 103-105: clear the derivatives. *)
Definition clear_der_params (der_params : Parameters) : seq (seq real) :=
  for_loop 0 (n_data der_params)
    (fun i dat => set_nth [::] dat i (memset0 (nth [::] dat i) (nth 0%N (size_ der_params) i)))
    (data der_params).

(** Lines 120-125: copy the groups one after the other into the row, and
    zero each group once it is copied.  The state is the row, the offset of
    [ptr] in it, and the group buffers. *)
Definition save_gradient (der_params : Parameters) (row : seq real) (dat : seq (seq real))
  : seq real * nat * seq (seq real) :=
  for_loop 0 (n_data der_params)
    (fun j (st : seq real * nat * seq (seq real)) =>
       let '(row, off, dat) := st in
       let sz := nth 0%N (size_ der_params) j in
       (memcpy_at row off (nth [::] dat j) sz,
        (off + sz)%N,
        set_nth [::] dat j (memset0 (nth [::] dat j) sz)))
    (row, 0%N, dat).

(** The forward and backward passes of the model and of the criterion are
    library code.  [machine] stands for everything they read and write apart
    from the derivative buffers (the current example, the activations, the
    criterion's [beta]); [fbprop i] is lines 110-117 for example [i]. *)
Variable machine : Type.
Variable fbprop : nat -> machine -> seq (seq real) -> machine * seq (seq real).

Record collector : Type := mkCollector {
  c_machine : machine;
  c_der : seq (seq real);
  c_gradients : seq (seq real);
  c_tick : nat;
  c_stdout : seq out_item
}.

(** Line 128: the two sides of the progress test. *)
Definition progress_ratio (i n_examples : nat) : real := i%:R / n_examples%:R.

Definition progress_mark (tick : nat) : real := tick%:R / 10%:R.

(** Lines 109-133: one example. *)
Definition collect_step (der_params : Parameters) (n_examples : nat)
    (i : nat) (s : collector) : collector :=
  let (mach, der) := fbprop i (c_machine s) (c_der s) in
  let '(row, _, der') := save_gradient der_params (nth [::] (c_gradients s) i) der in
  let due := progress_mark (c_tick s) < progress_ratio i n_examples in
  mkCollector mach der' (set_nth [::] (c_gradients s) i row)
    (if due then (c_tick s).+1 else c_tick s)
    (if due then rcons (c_stdout s) (Str ".") else c_stdout s).

(** The state in which the loop over the data starts. *)
Definition collect_init (der_params : Parameters) (n_examples : nat) (mach : machine)
  : collector :=
  mkCollector mach (clear_der_params der_params)
    (Mat_ptr (Mat_new n_examples (count_params der_params))) 1 [::].

(** The state at the start of the pass of example [i]: [i] iterations done. *)
Definition collect_upto (der_params : Parameters) (n_examples : nat) (mach : machine)
    (i : nat) : collector :=
  for_loop 0 i (collect_step der_params n_examples)
    (collect_init der_params n_examples mach).

(** Lines 88-133. *)
Definition collect_gradients (der_params : Parameters) (n_examples : nat)
    (mach : machine) : Mat :=
  mkMat n_examples (count_params der_params)
    (c_gradients (collect_upto der_params n_examples mach n_examples)).

(** The derivative buffers right after the passes of example [i], before
    they are copied: the gradient of example [i] as the program sees it. *)
Definition example_gradient (der_params : Parameters) (n_examples : nat)
    (mach : machine) (i : nat) : seq (seq real) :=
  let s := collect_upto der_params n_examples mach i in
  (fbprop i (c_machine s) (c_der s)).2.

(** The passes write into the group buffers and never resize them. *)
Definition keeps_sizes : Prop :=
  forall i mach dat, [seq size g | g <- (fbprop i mach dat).2] = [seq size g | g <- dat].

(** ** Norm, mean and centring (lines 135-164) *)

(** Modelled from the spec: [Vec::norm2] belongs to the matrix library, which
    is not part of the sources.  The specification calls the quantity that is
    accumulated row by row the squared L2 norm of the row: the sum of the
    squares of its [n] entries. *)
Definition norm2 (v : Vec) : real :=
  for_loop 0 (Vec_n v) (fun i sum => sum + nth 0 (Vec_ptr v) i * nth 0 (Vec_ptr v) i) 0.

(** The divisors of lines 142, 156 and 169. *)
Definition mean_norm2_divisor (n_examples : nat) : real := n_examples%:R.

Definition inv_n_examples_divisor (n_examples : nat) : real := n_examples%:R.

Definition covariance_divisor (n_examples : nat) : real := n_examples%:R - 1.

(** Lines 136-142. *)
Definition mean_norm2 (gradients : seq (seq real)) (n_examples n_params : nat) : real :=
  for_loop 0 n_examples
    (fun i acc => acc + norm2 (mkVec n_params (nth [::] gradients i))) 0
  / mean_norm2_divisor n_examples.

(** Lines 147-158. *)
Definition gradient_mean (gradients : seq (seq real)) (n_examples n_params : nat) : Vec :=
  let g0 := for_loop 0 n_params (fun i p => set_nth 0 p i 0) (Vec_ptr (Vec_new n_params)) in
  let g1 :=
    for_loop 0 n_examples
      (fun i p => for_loop 0 n_params
                    (fun j p => set_nth 0 p j (nth 0 p j + mget gradients i j)) p)
      g0 in
  let inv_n_examples := 1 / inv_n_examples_divisor n_examples in
  mkVec n_params
    (for_loop 0 n_params (fun i p => set_nth 0 p i (nth 0 p i * inv_n_examples)) g1).

(** Lines 162-164. *)
Definition center (gradients : seq (seq real)) (n_examples n_params : nat)
    (gradient_mean : Vec) : seq (seq real) :=
  for_loop 0 n_examples
    (fun i G => for_loop 0 n_params
                  (fun j G => mset G i j (mget G i j - nth 0 (Vec_ptr gradient_mean) j)) G)
    gradients.

(** Lines 147-164 on the matrix of gradients. *)
Definition center_gradients (gradients : Mat) (n_examples n_params : nat) : Mat :=
  mkMat (Mat_m gradients) (Mat_n gradients)
    (center (Mat_ptr gradients) n_examples n_params
       (gradient_mean (Mat_ptr gradients) n_examples n_params)).

(** ** Covariance (lines 166-169) *)

(** Modelled from the spec: [mxTrMatMulMat] belongs to the matrix library,
    which is not part of the sources.  The specification describes it as the
    transpose-multiply of dense matrices: [out = mat1^T * mat2]. *)
Definition mxTrMatMulMat (mat1 mat2 out : Mat) : Mat :=
  mkMat (Mat_m out) (Mat_n out)
    [seq [seq for_loop 0 (Mat_m mat1)
                (fun k sum => sum + mget (Mat_ptr mat1) k i * mget (Mat_ptr mat2) k j) 0
         | j <- iota 0 (Mat_n out)]
    | i <- iota 0 (Mat_m out)].

(** Modelled from the spec: [mxRealMulMat] belongs to the matrix library,
    which is not part of the sources.  The specification describes it as the
    scalar-multiply of a dense matrix: [out = alpha * mat]. *)
Definition mxRealMulMat (alpha : real) (mat out : Mat) : Mat :=
  mkMat (Mat_m out) (Mat_n out)
    [seq [seq alpha * mget (Mat_ptr mat) i j | j <- iota 0 (Mat_n out)]
    | i <- iota 0 (Mat_m out)].

(** Lines 97 and 168-169. *)
Definition compute_covariance (gradients : Mat) (n_examples n_params : nat) : Mat :=
  let covariance := Mat_new n_params n_params in
  let covariance := mxTrMatMulMat gradients gradients covariance in
  mxRealMulMat (1 / covariance_divisor n_examples) covariance covariance.

(** Every divisor of the run, in the order of execution: the progress test
    of each example (line 128), then lines 142, 156 and 169. *)
Definition pipeline_divisors (n_examples : nat) : seq real :=
  flatten [seq [:: n_examples%:R; 10%:R] | i <- iota 0 n_examples]
  ++ [:: mean_norm2_divisor n_examples; inv_n_examples_divisor n_examples;
         covariance_divisor n_examples].

(** ** Sorting the eigenpairs (lines 185-202) *)

(** Inner loop: the search for the largest remaining eigenvalue, first
    maximum wins. *)
Definition max_search (n_params : nat) (d : seq real) (i : nat) : nat * real :=
  for_loop i.+1 n_params
    (fun j (acc : nat * real) =>
       let (max_index, max_value) := acc in
       if max_value < nth 0 d j then (j, nth 0 d j) else (max_index, max_value))
    (i, nth 0 d i).

(** Exchange of the entries [c1] and [c2] of one row. *)
Definition swap_entries (T : Type) (x0 : T) (row : seq T) (c1 c2 : nat) : seq T :=
  set_nth x0 (set_nth x0 row c1 (nth x0 row c2)) c2 (nth x0 row c1).

(** Modelled from the spec: [mxSwapColsMat] belongs to the matrix library,
    which is not part of the sources.  The call passes -1, -1 for the row
    range, which the specification describes as a full-column swap with no
    index range restriction: every row exchanges its entries [c1] and [c2]. *)
Definition mxSwapColsMat (V : Mat) (c1 c2 : nat) : Mat :=
  mkMat (Mat_m V) (Mat_n V) [seq swap_entries 0 row c1 c2 | row <- Mat_ptr V].

(** One iteration of the outer loop. *)
Definition sort_step (n_params : nat) (i : nat) (st : Vec * Mat) : Vec * Mat :=
  let (d, V) := st in
  let (max_index, max_value) := max_search n_params (Vec_ptr d) i in
  let p1 := set_nth 0 (Vec_ptr d) max_index (nth 0 (Vec_ptr d) i) in
  let p2 := set_nth 0 p1 i max_value in
  (mkVec (Vec_n d) p2, mxSwapColsMat V i max_index).

Definition sort_eigen (n_params : nat) (d : Vec) (V : Mat) : Vec * Mat :=
  for_loop 0 n_params (sort_step n_params) (d, V).

(** ** Saving the results (lines 204-252) *)

(** Lines 218-219. *)
Definition write_eigenvals (d : Vec) : seq out_item :=
  for_loop 0 (Vec_n d)
    (fun j out => out ++ [:: Real (nth 0 (Vec_ptr d) j); Endl]) [::].

(** Lines 239-243. *)
Definition write_eigenvecs (V : Mat) : seq out_item :=
  for_loop 0 (Mat_m V)
    (fun j out =>
       for_loop 0 (Mat_n V)
         (fun k out => out ++ [:: Real (mget (Mat_ptr V) j k); Str " "]) out
       ++ [:: Endl])
    [::].

(** The lines of a text: the items between two ends of line.  Items after
    the last end of line, if any, form a last line. *)
Fixpoint lines_from (cur : seq out_item) (out : seq out_item) : seq (seq out_item) :=
  match out with
  | [::] => if cur is [::] then [::] else [:: cur]
  | Endl :: out' => cur :: lines_from [::] out'
  | x :: out' => lines_from (rcons cur x) out'
  end.

Definition lines (out : seq out_item) : seq (seq out_item) := lines_from [::] out.

Definition is_endl (x : out_item) : bool := if x is Endl then true else false.

(** What the operating system answers during the save: the status returned
    by [system], and whether each [open] left the stream open. *)
Record os_replies : Type := mkReplies {
  mkdir_status : nat;
  eigenvals_is_open : bool;
  eigenvecs_is_open : bool
}.

Inductive exit_status : Type :=
  | Returned0
  | Fatal of string.

(** What the save leaves behind: the shell commands issued, the items sent
    to each file, and how the process ended. *)
Record saved : Type := mkSaved {
  commands : seq string;
  eigenvals_file : seq out_item;
  eigenvecs_file : seq out_item;
  status : exit_status
}.

(** Lines 208-252.  Modelled from the spec: [error] belongs to the library,
    which is not part of the sources; the specification describes it as
    fatal: the process terminates with the message. *)
Definition save_results (flag_model_label : string) (os : os_replies) (d : Vec) (V : Mat)
  : saved :=
  let command := ("mkdir hessian" ++ flag_model_label)%string in
  let _ := mkdir_status os in
  if ~~ eigenvals_is_open os then
    mkSaved [:: command] [::] [::] (Fatal "Can't open file for eigenvals")
  else
    let vals := write_eigenvals d in
    if ~~ eigenvecs_is_open os then
      mkSaved [:: command] vals [::] (Fatal "Can't open eigenvecs file")
    else
      mkSaved [:: command] vals (write_eigenvecs V) Returned0.

Definition is_fatal (st : exit_status) : bool :=
  if st is Fatal _ then true else false.

(** Lines 185-252: sort, then save. *)
Definition sort_and_save (flag_model_label : string) (os : os_replies)
    (n_params : nat) (d : Vec) (V : Mat) : saved :=
  let (d', V') := sort_eigen n_params d V in
  save_results flag_model_label os d' V'.

(** [lambda] and [v] satisfy the eigen-equation of the [n] x [n] matrix
    [C]: row by row, [C . v = lambda . v]. *)
Definition eigen_equation (C : seq (seq real)) (n : nat) (lambda : real) (v : seq real)
  : bool :=
  all (fun r => for_loop 0 n (fun k sum => sum + mget C r k * nth 0 v k) 0
                == lambda * nth 0 v r)
      (iota 0 n).

End Pipeline.

(** ** A small run over the rationals

    Three examples and two parameters in two groups of one; the gradient of
    example [i] is row [i] of [ex_gradients].  The passes add it to the
    derivative buffers, as a backward pass accumulates. *)

Definition q (n : nat) : rat := n%:R.

Definition ex_gradients : seq (seq rat) :=
  [:: [:: q 1; q 0]; [:: q 0; q 1]; [:: q 1; q 1]].

Definition ex_der_params : Parameters rat :=
  mkParameters 2 [:: 1%N; 1%N] [:: [:: q 7]; [:: q 9]].

Definition ex_fbprop (i : nat) (mach : unit) (dat : seq (seq rat)) : unit * seq (seq rat) :=
  (mach, [seq [seq x + nth 0 (nth [::] ex_gradients i) j | x <- nth [::] dat j]
         | j <- iota 0 (size dat)]).

Definition ex_M : Mat rat := mkMat 3 2 ex_gradients.

Definition ex_centred_M : Mat rat := center_gradients ex_M 3 2.

Definition ex_d : Vec rat := mkVec 3 [:: q 1; q 3; q 2].

Definition ex_V : Mat rat :=
  mkMat 3 3 [:: [:: q 1; q 2; q 3]; [:: q 4; q 5; q 6]; [:: q 7; q 8; q 9]].

Definition ex_os : os_replies := mkReplies 1 true true.

(** A diagonal matrix, with the unit vectors as eigenvectors. *)
Definition ex_C : seq (seq rat) :=
  [:: [:: q 1; q 0; q 0]; [:: q 0; q 3; q 0]; [:: q 0; q 0; q 2]].

Definition ex_I : Mat rat :=
  mkMat 3 3 [:: [:: q 1; q 0; q 0]; [:: q 0; q 1; q 0]; [:: q 0; q 0; q 1]].



(** Eigenvalues that are already in non-increasing order. *)
Definition ex_d_sorted : Vec rat := mkVec 3 [:: q 3; q 2; q 2].


(** * Properties *)

Section LoopFacts.

Variable S : Type.

Lemma for_loop_empty lo hi (body : nat -> S -> S) s :
  (hi <= lo)%N -> for_loop lo hi body s = s.
Proof. by rewrite /for_loop -subn_eq0 => /eqP ->. Qed.

Lemma for_loop_first lo hi (body : nat -> S -> S) s :
  (lo < hi)%N -> for_loop lo hi body s = for_loop lo.+1 hi body (body lo s).
Proof.
move=> lt_lo_hi; rewrite /for_loop.
have -> : (hi - lo = (hi - lo.+1).+1)%N by rewrite subnS prednK // subn_gt0.
by [].
Qed.

Lemma for_loop_last lo hi (body : nat -> S -> S) s :
  (lo <= hi)%N -> for_loop lo hi.+1 body s = body hi (for_loop lo hi body s).
Proof.
move=> le_lo_hi; rewrite /for_loop subSn // -addn1 iotaD foldl_cat /=.
by rewrite subnKC.
Qed.

(** Loop invariant rule. *)
Lemma for_loop_inv (P : nat -> S -> Prop) lo hi (body : nat -> S -> S) s :
  (lo <= hi)%N -> P lo s ->
  (forall i t, (lo <= i < hi)%N -> P i t -> P i.+1 (body i t)) ->
  P hi (for_loop lo hi body s).
Proof.
move=> le_lo_hi P0 step.
elim: hi le_lo_hi step => [|hi IH] le_lo_hi step.
  by move: le_lo_hi P0; rewrite leqn0 => /eqP ->; rewrite for_loop_empty.
move: le_lo_hi; rewrite leq_eqVlt => /orP [/eqP eq_lo|lt_lo].
  by rewrite -eq_lo for_loop_empty // -eq_lo in P0 *.
rewrite for_loop_last //; apply: (step); first by rewrite ltnSn andbT.
apply: IH => // i t /andP [le_i lt_i]; apply: step.
by rewrite le_i (ltn_trans lt_i).
Qed.

End LoopFacts.

(** ** Exchanging two entries of a sequence *)

Section SwapFacts.

Variables (T : Type) (x0 : T).

Lemma nth_swap_entries (s : seq T) i j k :
  nth x0 (swap_entries x0 s i j) k =
  if k == j then nth x0 s i else if k == i then nth x0 s j else nth x0 s k.
Proof. by rewrite /swap_entries nth_set_nth /= nth_set_nth. Qed.

Lemma size_swap_entries (s : seq T) i j :
  (i < size s)%N -> (j < size s)%N -> size (swap_entries x0 s i j) = size s.
Proof.
by move=> lti ltj; rewrite /swap_entries !size_set_nth (maxn_idPr lti) (maxn_idPr ltj).
Qed.

Lemma swap_entriesC (s : seq T) i j :
  (i < size s)%N -> (j < size s)%N -> swap_entries x0 s i j = swap_entries x0 s j i.
Proof.
move=> lti ltj; apply: (@eq_from_nth _ x0); first by rewrite !size_swap_entries.
move=> k _; rewrite !nth_swap_entries.
case: (k =P j) => [ekj|_]; case: (k =P i) => [eki|_] //.
by rewrite -ekj -eki.
Qed.

Lemma count_set_nth (a : pred T) (s : seq T) i y :
  (i < size s)%N ->
  (count a (set_nth x0 s i y) + a (nth x0 s i) = count a s + a y)%N.
Proof.
elim: s i => [|x s IH] [|i] //=; first by move=> _; rewrite -!plusE; lia.
by rewrite ltnS => /IH; rewrite -!plusE; lia.
Qed.

End SwapFacts.

Lemma swap_entries_map (T U : Type) (x0 : T) (y0 : U) (f : T -> U) (s : seq T) i j :
  (i < size s)%N -> (j < size s)%N ->
  swap_entries y0 [seq f x | x <- s] i j = [seq f x | x <- swap_entries x0 s i j].
Proof.
move=> lti ltj; apply: (@eq_from_nth _ y0).
  by rewrite size_map !size_swap_entries ?size_map.
move=> k; rewrite size_swap_entries ?size_map // => ltk.
rewrite (nth_map x0) ?size_swap_entries // !nth_swap_entries.
by rewrite !(nth_map x0) //; case: ifP => // _; case: ifP.
Qed.

Lemma perm_swap_entries (T : eqType) (x0 : T) (s : seq T) i j :
  (i < size s)%N -> (j < size s)%N -> perm_eq (swap_entries x0 s i j) s.
Proof.
move=> lti ltj; apply/permP => a; rewrite /swap_entries.
have h1 := count_set_nth x0 a (nth x0 s j) lti.
have ltj' : (j < size (set_nth x0 s i (nth x0 s j)))%N.
  by rewrite size_set_nth (maxn_idPr lti).
have := count_set_nth x0 a (nth x0 s i) ltj'.
have -> : nth x0 (set_nth x0 s i (nth x0 s j)) j = nth x0 s j.
  by rewrite nth_set_nth /=; case: eqP.
by rewrite h1 => /addIn.
Qed.

(** ** The sort of the eigenpairs *)

Section SortFacts.

Variable real : realFieldType.

Implicit Types (d : Vec real) (V : Mat real) (p : seq nat).

(** The inner loop returns the position and the value of a largest entry
    among the positions [i .. n_params - 1]. *)
Lemma max_searchP n_params (s : seq real) i :
  (i < n_params)%N ->
  [/\ (max_search n_params s i).2 = nth 0 s (max_search n_params s i).1,
      (i <= (max_search n_params s i).1 < n_params)%N
    & forall k, (i <= k < n_params)%N -> nth 0 s k <= (max_search n_params s i).2].
Proof.
move=> lti; rewrite /max_search.
apply: (@for_loop_inv _ (fun j acc =>
          [/\ acc.2 = nth 0 s acc.1, (i <= acc.1 < j)%N
            & forall k, (i <= k < j)%N -> nth 0 s k <= acc.2])) => //=.
  split=> //; first by rewrite leqnn ltnSn.
  by move=> k; rewrite ltnS -eqn_leq => /eqP <-.
move=> j [mi mv] /= /andP [ltij ltjn] [-> /andP [le_i_mi lt_mi_j] maxP].
case: ifP => [lt_mv|ge_mv]; split=> //=.
- by rewrite ltnSn (ltnW ltij).
- move=> k /andP [leik]; rewrite ltnS leq_eqVlt => /orP [/eqP -> //|ltkj].
  by apply: ltW; apply: le_lt_trans lt_mv; apply: maxP; rewrite leik.
- by rewrite le_i_mi (ltn_trans lt_mi_j).
- move=> k /andP [leik]; rewrite ltnS leq_eqVlt => /orP [/eqP ->|ltkj].
    by rewrite leNgt ge_mv.
  by apply: maxP; rewrite leik.
Qed.

(** One iteration exchanges the entries [i] and [max_index] of [d] and of
    every row of [V]. *)
Lemma sort_stepE n_params d V i :
  (i < n_params)%N -> size (Vec_ptr d) = n_params ->
  let mi := (max_search n_params (Vec_ptr d) i).1 in
  sort_step n_params i (d, V) =
  (mkVec (Vec_n d) (swap_entries 0 (Vec_ptr d) i mi),
   mkMat (Mat_m V) (Mat_n V) [seq swap_entries 0 row i mi | row <- Mat_ptr V]).
Proof.
move=> lti szd /=; rewrite /sort_step.
have [] := max_searchP (Vec_ptr d) lti.
case: (max_search _ _ _) => mi mv /= -> /andP [_ ltmi] _.
by rewrite /mxSwapColsMat (@swap_entriesC _ _ _ i mi) ?szd.
Qed.

(** The loop invariant behind the permutation: the state after any number
    of iterations is the initial one read through a permutation [p] of the
    column indices. *)
Lemma sort_eigen_perm_inv n_params d V :
  size (Vec_ptr d) = n_params ->
  all (fun row => size row == n_params) (Mat_ptr V) ->
  exists p,
    [/\ perm_eq p (iota 0 n_params),
        (sort_eigen n_params d V).1
          = mkVec (Vec_n d) [seq nth 0 (Vec_ptr d) k | k <- p]
      & (sort_eigen n_params d V).2
          = mkMat (Mat_m V) (Mat_n V) [seq [seq nth 0 row k | k <- p] | row <- Mat_ptr V]].
Proof.
move=> szd szV; rewrite /sort_eigen.
apply: (@for_loop_inv _ (fun (i : nat) (st : Vec real * Mat real) =>
  exists p,
    [/\ perm_eq p (iota 0 n_params),
        st.1 = mkVec (Vec_n d) [seq nth 0 (Vec_ptr d) k | k <- p]
      & st.2 = mkMat (Mat_m V) (Mat_n V)
                 [seq [seq nth 0 row k | k <- p] | row <- Mat_ptr V]])) => //.
  exists (iota 0 n_params); split=> //.
    by case: d szd => n s /= <-; rewrite -/(mkseq _ _) mkseq_nth.
  case: V szV => m n rows /= szV; congr mkMat.
  rewrite -[LHS]map_id; apply/eq_in_map => row /(allP szV) /eqP <-.
  by rewrite -/(mkseq _ _) mkseq_nth.
move=> i [d1 V1] lti [p [perm_p e1 e2]]; rewrite /= in lti e1 e2; subst d1 V1.
have szp : size p = n_params by rewrite (perm_size perm_p) size_iota.
rewrite sort_stepE //= ?size_map //.
set mi := (max_search _ _ _).1.
have ltmi : (mi < n_params)%N.
  have := @max_searchP n_params [seq nth 0 (Vec_ptr d) k | k <- p] i lti.
  by case=> _ /andP [_ ltmi] _.
exists (swap_entries 0%N p i mi); split.
- by apply: perm_trans perm_p; apply: perm_swap_entries; rewrite szp.
- by rewrite (@swap_entries_map _ _ 0%N) ?szp.
- congr mkMat; rewrite -map_comp; apply: eq_map => row /=.
  by rewrite (@swap_entries_map _ _ 0%N) ?szp.
Qed.

(** C1.  The sort applies one and the same permutation to the eigenvalues
    and to the columns of the eigenvector matrix: there is a permutation [p]
    of the indices [0 .. n_params - 1] such that, after the sort, the value
    at position [i] is the original [d[p(i)]] and column [i] of [V] is the
    original column [p(i)], for every [i]; the shapes are unchanged, so no
    eigenpair is lost, duplicated or paired anew. *)
Theorem sort_eigen_same_permutation n_params d V :
  wf_Vec d -> Vec_n d = n_params -> wf_Mat V -> Mat_n V = n_params ->
  exists p : seq nat,
    [/\ perm_eq p (iota 0 n_params),
        wf_Vec (sort_eigen n_params d V).1
        /\ Vec_n (sort_eigen n_params d V).1 = n_params,
        [/\ wf_Mat (sort_eigen n_params d V).2,
            Mat_m (sort_eigen n_params d V).2 = Mat_m V
          & Mat_n (sort_eigen n_params d V).2 = n_params],
        forall i, (i < n_params)%N ->
          nth 0 (Vec_ptr (sort_eigen n_params d V).1) i
          = nth 0 (Vec_ptr d) (nth 0%N p i)
      & forall i, (i < n_params)%N ->
          column (Mat_ptr (sort_eigen n_params d V).2) i
          = column (Mat_ptr V) (nth 0%N p i)].
Proof.
move=> /eqP wfd nd /andP [/eqP szV rowsV] nV.
have szd : size (Vec_ptr d) = n_params by rewrite wfd.
have rowsV' : all (fun row => size row == n_params) (Mat_ptr V) by rewrite -nV.
have [p [perm_p -> ->]] := sort_eigen_perm_inv szd rowsV'.
have szp : size p = n_params by rewrite (perm_size perm_p) size_iota.
exists p; split=> //=.
- by rewrite /wf_Vec /= size_map szp nd eqxx.
- split=> //; rewrite /wf_Mat /= size_map szV eqxx /=.
  by apply/allP => row /mapP [row' _ ->]; rewrite size_map szp nV.
- by move=> i lti; rewrite (nth_map 0%N) ?szp.
- move=> i lti; rewrite /column -map_comp; apply: eq_map => row /=.
  by rewrite (nth_map 0%N) ?szp.
Qed.

(** The loop invariant behind the order: after [i] iterations the first [i]
    entries are in non-increasing order and each of them is at least as
    large as every later entry. *)
Lemma sort_eigen_order_inv n_params d V i :
  size (Vec_ptr d) = n_params -> (i <= n_params)%N ->
  let s := Vec_ptr (for_loop 0 i (sort_step n_params) (d, V)).1 in
  size s = n_params /\
  forall a b, (a < i)%N -> (a < b < n_params)%N -> nth 0 s b <= nth 0 s a.
Proof.
move=> szd lein /=.
apply: (@for_loop_inv _ (fun (i : nat) (st : Vec real * Mat real) =>
  size (Vec_ptr st.1) = n_params /\
  forall a b, (a < i)%N -> (a < b < n_params)%N ->
    nth 0 (Vec_ptr st.1) b <= nth 0 (Vec_ptr st.1) a)) => //.
move=> j [d1 V1] ltj [sz1 ord1]; rewrite /= in ltj sz1 ord1.
have ltjn : (j < n_params)%N by apply: leq_trans ltj lein.
rewrite sort_stepE //=.
have [emv /andP [lejm ltmn] maxP] := max_searchP (Vec_ptr d1) ltjn.
rewrite {}emv in maxP; move: maxP.
set mi := (max_search _ _ _).1 in lejm ltmn *.
move=> maxP; split; first by rewrite size_swap_entries ?sz1.
move=> a b; rewrite ltnS leq_eqVlt => /orP [/eqP eaj|ltaj] /andP [ltab ltbn].
  rewrite eaj !nth_swap_entries eqxx.
  have -> : (if j == mi then nth 0 (Vec_ptr d1) j else nth 0 (Vec_ptr d1) mi)
            = nth 0 (Vec_ptr d1) mi by case: eqP => [->|].
  case: ifP => _; first by apply: maxP; rewrite leqnn.
  case: ifP => _ //.
  by apply: maxP; rewrite ltbn andbT ltnW // -eaj.
rewrite !nth_swap_entries (ltn_eqF ltaj) (ltn_eqF (leq_trans ltaj lejm)).
case: ifP => _; first by apply: ord1 => //; rewrite ltaj.
case: ifP => _; first by apply: ord1 => //; rewrite ltmn andbT (leq_trans ltaj).
by apply: ord1 => //; rewrite ltab.
Qed.

(** C2.  After the selection sort the eigenvalues are in non-increasing
    order: [d[i] >= d[i+1]] for every [i] from 0 to [n_params - 2]. *)
Theorem sort_eigen_nonincreasing n_params d V :
  wf_Vec d -> Vec_n d = n_params ->
  forall i, (i.+1 < n_params)%N ->
    nth 0 (Vec_ptr (sort_eigen n_params d V).1) i
    >= nth 0 (Vec_ptr (sort_eigen n_params d V).1) i.+1.
Proof.
move=> /eqP wfd nd i lti.
have szd : size (Vec_ptr d) = n_params by rewrite wfd.
have [_ ord] := @sort_eigen_order_inv n_params d V n_params szd (leqnn _).
by apply: ord; rewrite ?ltnSn ?lti // (ltn_trans _ lti).
Qed.

End SortFacts.

(** ** Loops that fill a buffer in place *)

Section FillFacts.

Variables (T : Type) (x0 : T).

Lemma set_nth_id (s : seq T) i : (i < size s)%N -> set_nth x0 s i (nth x0 s i) = s.
Proof.
move=> lti; apply: (@eq_from_nth _ x0); first by rewrite size_set_nth (maxn_idPr lti).
by move=> k _; rewrite nth_set_nth /=; case: eqP => [->|].
Qed.

(** [for (j = 0; j < n; j++) p[j] = h(j, p[j]);] *)
Lemma for_loop_set_nth n (h : nat -> T -> T) (p0 : seq T) :
  size p0 = n ->
  for_loop 0 n (fun j p => set_nth x0 p j (h j (nth x0 p j))) p0
  = mkseq (fun j => h j (nth x0 p0 j)) n.
Proof.
move=> sz0.
have [szn nthn] : size (for_loop 0 n (fun j p => set_nth x0 p j (h j (nth x0 p j))) p0) = n
    /\ forall j, nth x0 (for_loop 0 n (fun j p => set_nth x0 p j (h j (nth x0 p j))) p0) j
                 = if (j < n)%N then h j (nth x0 p0 j) else nth x0 p0 j.
  apply: (@for_loop_inv _ (fun k p => size p = n /\
            forall j, nth x0 p j = if (j < k)%N then h j (nth x0 p0 j) else nth x0 p0 j)) => //.
  move=> k p /= ltk [szp nthp]; split.
    by rewrite size_set_nth szp (maxn_idPr ltk).
  move=> j; rewrite nth_set_nth /= ltnS leq_eqVlt.
  by case: (j =P k) => [->|_] /=; rewrite nthp ?ltnn.
apply: (@eq_from_nth _ x0); first by rewrite szn size_mkseq.
by move=> j; rewrite szn => ltj; rewrite nthn ltj nth_mkseq.
Qed.

End FillFacts.

Section RowFacts.

Variable real : realFieldType.

Implicit Types (G : seq (seq real)) (row : seq real).

(** [for (j = 0; j < n; j++) G[i][j] = h(j, G[i][j]);] rewrites row [i]. *)
Lemma for_loop_mset n (h : nat -> real -> real) G i :
  (i < size G)%N -> size (nth [::] G i) = n ->
  for_loop 0 n (fun j G => mset G i j (h j (mget G i j))) G
  = set_nth [::] G i (mkseq (fun j => h j (mget G i j)) n).
Proof.
move=> lti szrow; rewrite -[mkseq _ _](for_loop_set_nth 0 _ szrow).
have loopE k :
  for_loop 0 k (fun j G => mset G i j (h j (mget G i j))) G
  = set_nth [::] G i
      (for_loop 0 k (fun j row => set_nth 0 row j (h j (nth 0 row j))) (nth [::] G i)).
  elim: k => [|k IH]; first by rewrite !for_loop_empty // set_nth_id.
  rewrite !for_loop_last // IH /mset /mget nth_set_nth /= eqxx.
  by rewrite set_set_nth eqxx.
exact: loopE.
Qed.

(** A running sum. *)
Lemma for_loop_sum n (f : nat -> real) a :
  for_loop 0 n (fun k acc => acc + f k) a = a + \sum_(0 <= k < n) f k.
Proof.
elim: n => [|n IH]; first by rewrite for_loop_empty // big_geq // addr0.
by rewrite for_loop_last // IH big_nat_recr //= addrA.
Qed.

End RowFacts.

(** ** Norm, mean, centring and covariance *)

Section NumericFacts.

Variable real : realFieldType.

Implicit Types (G : seq (seq real)) (M : Mat real).

Lemma mkseq_ext (T : Type) (f g : nat -> T) n :
  (forall j, (j < n)%N -> f j = g j) -> mkseq f n = mkseq g n.
Proof.
by move=> fg; apply/eq_in_map => j; rewrite mem_iota add0n => /andP [_ /fg].
Qed.

Lemma mget_mkseq (f : nat -> nat -> real) m n i j :
  (i < m)%N -> (j < n)%N ->
  mget [seq [seq f i j | j <- iota 0 n] | i <- iota 0 m] i j = f i j.
Proof.
move=> lti ltj; rewrite /mget -/(mkseq _ m) nth_mkseq //.
by rewrite -/(mkseq _ n) nth_mkseq.
Qed.

Lemma wf_Mat_row M i :
  wf_Mat M -> (i < Mat_m M)%N -> size (nth [::] (Mat_ptr M) i) = Mat_n M.
Proof.
case/andP => /eqP szM /allP rowsM lti; apply/eqP/rowsM.
by rewrite mem_nth // szM.
Qed.

Lemma norm2E n (row : seq real) :
  size row = n -> norm2 (mkVec n row) = \sum_(x <- row) x ^+ 2.
Proof.
move=> szrow; rewrite /norm2 /= for_loop_sum add0r [RHS](big_nth 0) szrow.
by apply: eq_bigr => j _; rewrite expr2.
Qed.

(** Whatever [norm2] computes, lines 136-142 average it over the rows. *)
Lemma mean_norm2_rows G n_examples n_params :
  mean_norm2 G n_examples n_params
  = (\sum_(0 <= i < n_examples) norm2 (mkVec n_params (nth [::] G i))) / n_examples%:R.
Proof. by rewrite /mean_norm2 for_loop_sum add0r. Qed.

(** C9.  The diagnostic [mean_norm2] is the mean of the squared Euclidean
    norms of the rows of the gradient matrix: [1/N] times the sum, over the
    examples, of the sum of the squares of the entries of the row. *)
Theorem mean_norm2_correct M n_examples n_params :
  wf_Mat M -> Mat_m M = n_examples -> Mat_n M = n_params -> (1 <= n_examples)%N ->
  mean_norm2 (Mat_ptr M) n_examples n_params
  = n_examples%:R^-1 * \sum_(row <- Mat_ptr M) \sum_(x <- row) x ^+ 2.
Proof.
move=> wfM mM nM _; rewrite mean_norm2_rows mulrC.
congr (_ * _); rewrite [RHS](big_nth [::]).
have /andP [/eqP -> _] := wfM; rewrite mM.
rewrite !big_nat; apply: eq_bigr => i /andP [_ lti].
by rewrite norm2E // -nM wf_Mat_row // mM.
Qed.

(** The mean vector, entry by entry. *)
Lemma gradient_meanE G n_examples n_params :
  Vec_ptr (gradient_mean G n_examples n_params)
  = mkseq (fun j => (\sum_(0 <= i < n_examples) mget G i j) * (1 / n_examples%:R)) n_params.
Proof.
rewrite /gradient_mean /inv_n_examples_divisor /=.
rewrite (@for_loop_set_nth _ 0 n_params (fun _ _ => 0)) ?size_nseq //.
have -> : for_loop 0 n_examples
            (fun i p => for_loop 0 n_params
               (fun j p => set_nth 0 p j (nth 0 p j + mget G i j)) p)
            (mkseq (fun=> 0) n_params)
          = mkseq (fun j => \sum_(0 <= i < n_examples) mget G i j) n_params.
  apply: (@for_loop_inv _ (fun k p =>
            p = mkseq (fun j => \sum_(0 <= i < k) mget G i j) n_params)) => //.
    by apply: mkseq_ext => j _; rewrite big_geq.
  move=> k p _ ->.
  rewrite (@for_loop_set_nth _ 0 n_params (fun j x => x + mget G k j)) ?size_mkseq //.
  by apply: mkseq_ext => j ltj; rewrite nth_mkseq // big_nat_recr.
rewrite (@for_loop_set_nth _ 0 n_params (fun _ x => x * (1 / n_examples%:R))) ?size_mkseq //.
by apply: mkseq_ext => j ltj; rewrite nth_mkseq.
Qed.

(** The centred matrix, entry by entry. *)
Lemma centerE G n_examples n_params (mean : Vec real) :
  size G = n_examples -> all (fun row => size row == n_params) G ->
  center G n_examples n_params mean
  = mkseq (fun i => mkseq (fun j => mget G i j - nth 0 (Vec_ptr mean) j) n_params)
      n_examples.
Proof.
move=> szG /allP rowsG; rewrite /center.
set row' := fun i => mkseq (fun j => mget G i j - nth 0 (Vec_ptr mean) j) n_params.
have szrow i : (i < n_examples)%N -> size (nth [::] G i) = n_params.
  by move=> lti; apply/eqP/rowsG; rewrite mem_nth ?szG.
have [szn nthn] :
  size (for_loop 0 n_examples
          (fun i G => for_loop 0 n_params
             (fun j G => mset G i j (mget G i j - nth 0 (Vec_ptr mean) j)) G) G)
  = n_examples
  /\ forall i, nth [::] (for_loop 0 n_examples
          (fun i G => for_loop 0 n_params
             (fun j G => mset G i j (mget G i j - nth 0 (Vec_ptr mean) j)) G) G) i
     = if (i < n_examples)%N then row' i else nth [::] G i.
  apply: (@for_loop_inv _ (fun k G' => size G' = n_examples /\
            forall i, nth [::] G' i = if (i < k)%N then row' i else nth [::] G i)) => //.
  move=> k G' /= ltk [szG' nthG'].
  have rowk : nth [::] G' k = nth [::] G k by rewrite nthG' ltnn.
  rewrite (@for_loop_mset _ n_params (fun j x => x - nth 0 (Vec_ptr mean) j))
    ?szG' ?rowk ?szrow //.
  split; first by rewrite size_set_nth szG' (maxn_idPr ltk).
  move=> i; rewrite nth_set_nth /= ltnS leq_eqVlt.
  case: (i =P k) => [->|_] /=; last by rewrite nthG'.
  by apply: mkseq_ext => j _; rewrite /mget rowk.
apply: (@eq_from_nth _ [::]); first by rewrite szn size_mkseq.
by move=> i; rewrite szn => lti; rewrite nthn lti nth_mkseq.
Qed.

(** C4.  The mean of column [j] is the plain arithmetic mean [1/N] times
    the sum of the entries of the column; centring subtracts it from every
    entry of the column and keeps the shape; and, in exact arithmetic, the
    column-wise mean of the centred matrix is the zero vector. *)
Theorem center_gradients_correct M n_examples n_params :
  wf_Mat M -> Mat_m M = n_examples -> Mat_n M = n_params -> (1 <= n_examples)%N ->
  let mean := gradient_mean (Mat_ptr M) n_examples n_params in
  let M' := center_gradients M n_examples n_params in
  [/\ wf_Vec mean /\ Vec_n mean = n_params,
      forall j, (j < n_params)%N ->
        nth 0 (Vec_ptr mean) j
        = n_examples%:R^-1 * \sum_(0 <= i < n_examples) mget (Mat_ptr M) i j,
      [/\ wf_Mat M', Mat_m M' = n_examples & Mat_n M' = n_params],
      forall i j, (i < n_examples)%N -> (j < n_params)%N ->
        mget (Mat_ptr M') i j = mget (Mat_ptr M) i j - nth 0 (Vec_ptr mean) j
    & Vec_ptr (gradient_mean (Mat_ptr M') n_examples n_params) = nseq n_params 0].
Proof.
move=> wfM mM nM posN mean M'.
have /andP [/eqP szM rowsM] := wfM.
have szM' : size (Mat_ptr M) = n_examples by rewrite szM.
have rowsM' : all (fun row => size row == n_params) (Mat_ptr M) by rewrite -nM.
have meanE j : (j < n_params)%N ->
    nth 0 (Vec_ptr mean) j
    = n_examples%:R^-1 * \sum_(0 <= i < n_examples) mget (Mat_ptr M) i j.
  by move=> ltj; rewrite /mean gradient_meanE nth_mkseq // div1r mulrC.
have centE i j : (i < n_examples)%N -> (j < n_params)%N ->
    mget (Mat_ptr M') i j = mget (Mat_ptr M) i j - nth 0 (Vec_ptr mean) j.
  by move=> lti ltj; rewrite /M' /= centerE // /mget nth_mkseq // nth_mkseq.
split=> //.
- by rewrite /wf_Vec /mean gradient_meanE /= size_mkseq eqxx.
- split; rewrite /M' /center_gradients /wf_Mat /= ?centerE //.
  rewrite size_mkseq mM eqxx /=.
  by apply/allP => row /mapP [i _ ->]; rewrite size_mkseq nM.
- rewrite gradient_meanE; apply: (@eq_from_nth _ 0); first by rewrite size_mkseq size_nseq.
  move=> j; rewrite size_mkseq => ltj; rewrite nth_mkseq // nth_nseq ltj.
  have -> : \sum_(0 <= i < n_examples) mget (Mat_ptr M') i j
            = \sum_(0 <= i < n_examples) (mget (Mat_ptr M) i j - nth 0 (Vec_ptr mean) j).
    by rewrite !big_nat; apply: eq_bigr => i /andP [_ lti]; rewrite centE.
  rewrite sumrB sumr_const_nat subn0 meanE // -mulr_natr mulrAC mulVf ?mul1r ?subrr ?mul0r //.
  by rewrite pnatr_eq0 -lt0n.
Qed.

(** C3.  The covariance matrix is the Gram matrix of the gradient matrix
    scaled by [1/(N-1)]: entry [(i, j)] is the sum over the rows [k] of
    [G[k][i] * G[k][j]], divided by [N - 1]; in particular the matrix is
    symmetric. *)
Theorem compute_covariance_correct M n_examples n_params :
  wf_Mat M -> Mat_m M = n_examples -> Mat_n M = n_params -> (2 <= n_examples)%N ->
  let C := compute_covariance M n_examples n_params in
  [/\ [/\ wf_Mat C, Mat_m C = n_params & Mat_n C = n_params],
      forall i j, (i < n_params)%N -> (j < n_params)%N ->
        mget (Mat_ptr C) i j
        = (\sum_(0 <= k < n_examples) mget (Mat_ptr M) k i * mget (Mat_ptr M) k j)
          / (n_examples%:R - 1)
    & forall i j, (i < n_params)%N -> (j < n_params)%N ->
        mget (Mat_ptr C) i j = mget (Mat_ptr C) j i].
Proof.
move=> wfM mM nM _ C.
have CE i j : (i < n_params)%N -> (j < n_params)%N ->
    mget (Mat_ptr C) i j
    = (\sum_(0 <= k < n_examples) mget (Mat_ptr M) k i * mget (Mat_ptr M) k j)
      / (n_examples%:R - 1).
  move=> lti ltj; rewrite /C /compute_covariance /mxRealMulMat /mxTrMatMulMat /=.
  rewrite mget_mkseq // mget_mkseq // for_loop_sum add0r mM /covariance_divisor.
  by rewrite div1r mulrC.
split=> //.
- split=> //; rewrite /C /compute_covariance /wf_Mat /= size_map size_iota eqxx /=.
  by apply/allP => row /mapP [i _ ->]; rewrite size_map size_iota.
- move=> i j lti ltj; rewrite !CE //; congr (_ / _).
  by apply: eq_bigr => k _; rewrite mulrC.
Qed.

(** C10.  No division of the run is guarded: whatever the number of
    examples, the mean norm is a quotient by [N], the mean is scaled by the
    quotient [1/N] and the covariance by the quotient [1/(N-1)].  The
    divisors of a run are all nonzero if and only if there are at least two
    examples; with exactly one example the covariance divisor is zero. *)
Theorem pipeline_divisors_nonzero n_examples :
  [/\ forall G n_params,
        mean_norm2 G n_examples n_params
        = for_loop 0 n_examples
            (fun i acc => acc + norm2 (mkVec n_params (nth [::] G i))) 0
          / mean_norm2_divisor real n_examples
        /\ Vec_ptr (gradient_mean G n_examples n_params)
           = [seq s * (1 / inv_n_examples_divisor real n_examples)
             | s <- mkseq (fun j => \sum_(0 <= i < n_examples) mget G i j) n_params],
      forall M n_params,
        compute_covariance M n_examples n_params
        = mxRealMulMat (1 / covariance_divisor real n_examples)
            (mxTrMatMulMat M M (Mat_new real n_params n_params))
            (mxTrMatMulMat M M (Mat_new real n_params n_params)),
      all (fun y : real => y != 0) (pipeline_divisors real n_examples)
      = (2 <= n_examples)%N
    & covariance_divisor real 1 = 0].
Proof.
split=> //.
- by move=> G n_params; rewrite gradient_meanE /mkseq -map_comp.
- have progress_nz : (n_examples != 0)%N ->
      all (fun y : real => y != 0)
        (flatten [seq [:: n_examples%:R; 10%:R] | i <- iota 0 n_examples]).
    move=> Nn0; apply/allP => y /flattenP [l /mapP [i _ ->]].
    by rewrite !inE => /orP [/eqP ->|/eqP ->]; rewrite pnatr_eq0.
  rewrite /pipeline_divisors all_cat /= andbT /mean_norm2_divisor
    /inv_n_examples_divisor /covariance_divisor.
  rewrite !pnatr_eq0 subr_eq0 -[1]/(1%:R) eqr_nat.
  case: n_examples progress_nz => [|[|n]] progress_nz //; first by rewrite andbF.
  by rewrite progress_nz.
- by rewrite /covariance_divisor subrr.
Qed.

End NumericFacts.

(** ** Collecting the gradients *)

Section CopyFacts.

Variable real : realFieldType.

Implicit Types (p : Parameters real) (dat : seq (seq real)) (row : seq real).

Lemma set_nth_cat_head (T : Type) (x0 : T) (s1 s2 : seq T) x y :
  set_nth x0 (s1 ++ x :: s2) (size s1) y = s1 ++ y :: s2.
Proof. by elim: s1 => [|z s1 IH] //=; rewrite IH. Qed.

Lemma memset0_all row : memset0 row (size row) = nseq (size row) 0.
Proof. by rewrite /memset0 drop_size cats0. Qed.

Lemma size_zero_params sizes : size (zero_params real sizes) = size sizes.
Proof. by rewrite size_map. Qed.

Lemma shape_zero_params sizes : [seq size g | g <- zero_params real sizes] = sizes.
Proof.
by rewrite /zero_params -map_comp -[RHS]map_id; apply: eq_map => sz /=; rewrite size_nseq.
Qed.

(** The number of parameters is the sum of the sizes of the groups. *)
Lemma count_paramsE p : wf_Parameters p -> count_params p = sumn (size_ p).
Proof.
case/and3P => /eqP szs _ _; rewrite /count_params -[in RHS](take_size (size_ p)) szs.
apply: (@for_loop_inv _ (fun k n => n = sumn (take k (size_ p)))) => //.
  by rewrite take0.
move=> k n /= ltk ->.
by rewrite (take_nth 0%N) ?szs // sumn_rcons.
Qed.

Lemma clear_der_paramsE p :
  wf_Parameters p -> clear_der_params p = zero_params real (size_ p).
Proof.
case/and3P => /eqP szs /eqP szd /eqP shp; rewrite /clear_der_params.
rewrite (@for_loop_set_nth _ [::] (n_data p)
           (fun i buf => memset0 buf (nth 0%N (size_ p) i))) //.
apply: (@eq_from_nth _ [::]); first by rewrite size_mkseq size_zero_params.
move=> i; rewrite size_mkseq => lti; rewrite nth_mkseq //.
rewrite (nth_map 0%N) ?szs // -shp (nth_map [::]) ?szd //.
exact: memset0_all.
Qed.

(** Copying the groups fills the row with their concatenation and leaves
    every group zero. *)
Lemma save_gradientE p row dat :
  size dat = n_data p -> [seq size g | g <- dat] = size_ p ->
  size row = sumn (size_ p) ->
  save_gradient p row dat = (flatten dat, sumn (size_ p), zero_params real (size_ p)).
Proof.
move=> szd shp szrow; rewrite /save_gradient.
have szs : size (size_ p) = n_data p by rewrite -shp size_map.
have -> : (flatten dat, sumn (size_ p), zero_params real (size_ p))
          = (flatten (take (n_data p) dat) ++ drop (sumn (take (n_data p) (size_ p))) row,
             sumn (take (n_data p) (size_ p)),
             zero_params real (take (n_data p) (size_ p)) ++ drop (n_data p) dat).
  by rewrite !take_oversize ?drop_oversize ?cats0 ?szd ?szs ?szrow.
apply: (@for_loop_inv _ (fun j st =>
  st = (flatten (take j dat) ++ drop (sumn (take j (size_ p))) row,
        sumn (take j (size_ p)),
        zero_params real (take j (size_ p)) ++ drop j dat))) => //.
  by rewrite !take0 /= !drop0.
move=> j st /= ltj ->.
set F := flatten (take j dat); set off := sumn (take j (size_ p)).
set Z := zero_params real (take j (size_ p)); set X := nth [::] dat j.
have szZ : size Z = j by rewrite size_zero_params size_take szs ltj.
have szF : size F = off by rewrite size_flatten /shape map_take shp.
have szX : nth 0%N (size_ p) j = size X by rewrite -shp (nth_map [::]) ?szd.
have nthD : nth [::] (Z ++ drop j dat) j = X.
  by rewrite nth_cat szZ ltnn subnn nth_drop addn0.
rewrite nthD szX (take_nth 0%N) ?szs // (take_nth [::]) ?szd // -/X szX.
congr (_, _, _).
- rewrite /memcpy_at take_size_cat // take_size -cats1 flatten_cat /= cats0.
  rewrite sumn_rcons -/off -catA; congr (_ ++ (_ ++ _)).
  by rewrite addnC -drop_drop drop_size_cat // drop_drop addnC.
- by rewrite sumn_rcons.
- rewrite (drop_nth [::]) ?szd // -/X -szZ set_nth_cat_head memset0_all.
  by rewrite /zero_params map_rcons cat_rcons -/(zero_params _ _) szZ.
Qed.

End CopyFacts.

Section CollectFacts.

Variable real : realFieldType.
Variable machine : Type.
Variable fbprop : nat -> machine -> seq (seq real) -> machine * seq (seq real).

Implicit Types (p : Parameters real) (mach : machine).

Lemma sumn_take_nth (s : seq nat) j :
  (j <= size s)%N -> sumn (take j s) = (\sum_(0 <= k < j) nth 0 s k)%N.
Proof.
elim: j => [|j IH] ltj; first by rewrite take0 big_geq.
by rewrite (take_nth 0%N) // sumn_rcons IH ?big_nat_recr // ltnW.
Qed.

(** Where group [j] lies in the concatenation of the groups. *)
Lemma nth_flatten_group (ss : seq (seq real)) j c :
  (j < size ss)%N -> (c < size (nth [::] ss j))%N ->
  nth 0 (flatten ss) (sumn (take j [seq size g | g <- ss]) + c) = nth 0 (nth [::] ss j) c.
Proof.
elim: ss j => [|s ss IH] [|j] //=; first by move=> _ ltc; rewrite add0n nth_cat ltc.
rewrite ltnS => ltj ltc; rewrite nth_cat -addnA ltnNge leq_addr /= addKn.
exact: IH.
Qed.

Lemma collect_uptoS p n_examples mach i :
  collect_upto fbprop p n_examples mach i.+1
  = collect_step fbprop p n_examples i (collect_upto fbprop p n_examples mach i).
Proof. by rewrite /collect_upto for_loop_last. Qed.

(** The loop invariant of the collection: the derivative buffers are zero,
    the matrix keeps its shape, and each row already written is the
    concatenation of the groups of its example. *)
Lemma collect_upto_inv p n_examples mach i :
  wf_Parameters p -> keeps_sizes fbprop -> (i <= n_examples)%N ->
  let s := collect_upto fbprop p n_examples mach i in
  [/\ c_der s = zero_params real (size_ p),
      size (c_gradients s) = n_examples,
      forall k, (k < n_examples)%N -> size (nth [::] (c_gradients s) k) = sumn (size_ p)
    & forall k, (k < i)%N ->
        nth [::] (c_gradients s) k = flatten (example_gradient fbprop p n_examples mach k)].
Proof.
move=> wfp keep; have /and3P [/eqP szs /eqP szd /eqP shp] := wfp.
elim: i => [_|i IH lti].
  rewrite /collect_upto for_loop_empty //= clear_der_paramsE // count_paramsE //.
  by split=> //; [rewrite size_nseq | move=> k ltk; rewrite nth_nseq ltk size_nseq].
have [der0 szG rowsG doneG] := IH (ltnW lti).
rewrite collect_uptoS /collect_step.
have := keep i (c_machine (collect_upto fbprop p n_examples mach i))
               (c_der (collect_upto fbprop p n_examples mach i)).
rewrite {2}der0 shape_zero_params.
have egE : example_gradient fbprop p n_examples mach i
           = (fbprop i (c_machine (collect_upto fbprop p n_examples mach i))
                       (c_der (collect_upto fbprop p n_examples mach i))).2 by [].
case: (fbprop i _ _) egE => mach' der /= egE shder.
have szder : size der = n_data p by rewrite -szs -shder size_map.
rewrite save_gradientE ?rowsG //=; split=> //.
- by rewrite size_set_nth szG (maxn_idPr lti).
- move=> k ltk; rewrite nth_set_nth /=; case: eqP => _; last exact: rowsG.
  by rewrite size_flatten /shape shder.
- move=> k; rewrite ltnS leq_eqVlt nth_set_nth /=.
  by case: (k =P i) => [->|_] /=; [rewrite egE | apply: doneG].
Qed.

(** C5.  The gradient matrix has exactly [N] rows and [P] columns, where
    [P] is the sum of the sizes of the groups; row [i] holds the gradient of
    example [i] with the groups concatenated in their order: group [j]
    occupies the columns from [s_0 + ... + s_(j-1)] on, one per entry. *)
Theorem collect_gradients_layout p n_examples mach :
  wf_Parameters p -> keeps_sizes fbprop ->
  let M := collect_gradients fbprop p n_examples mach in
  let P := (\sum_(0 <= j < n_data p) nth 0 (size_ p) j)%N in
  [/\ count_params p = P,
      [/\ wf_Mat (Mat_new real n_examples (count_params p)),
          Mat_m (Mat_new real n_examples (count_params p)) = n_examples
        & Mat_n (Mat_new real n_examples (count_params p)) = P],
      [/\ wf_Mat M, Mat_m M = n_examples & Mat_n M = P],
      forall i, (i < n_examples)%N ->
        nth [::] (Mat_ptr M) i = flatten (example_gradient fbprop p n_examples mach i)
    & forall i j c, (i < n_examples)%N -> (j < n_data p)%N -> (c < nth 0 (size_ p) j)%N ->
        mget (Mat_ptr M) i ((\sum_(0 <= k < j) nth 0 (size_ p) k)%N + c)
        = nth 0 (nth [::] (example_gradient fbprop p n_examples mach i) j) c].
Proof.
move=> wfp keep M P; have /and3P [/eqP szs /eqP szd /eqP shp] := wfp.
have PE : count_params p = P.
  by rewrite count_paramsE // /P -sumn_take_nth -szs ?take_size.
have [der0 szG rowsG doneG] := collect_upto_inv mach wfp keep (leqnn n_examples).
have shape_eg i : (i < n_examples)%N ->
    [seq size g | g <- example_gradient fbprop p n_examples mach i] = size_ p.
  move=> lti; rewrite /example_gradient keep.
  have [-> _ _ _] := collect_upto_inv mach wfp keep (ltnW lti).
  exact: shape_zero_params.
split=> //.
- split=> //; rewrite /wf_Mat /= size_nseq eqxx /=.
  by apply/allP => row /nseqP [-> _]; rewrite size_nseq.
- split=> //; rewrite /wf_Mat /= szG eqxx /=.
  apply/allP=> row /(nthP [::]) [k]; rewrite szG => ltk <-.
  by rewrite rowsG // count_paramsE.
- move=> i j c lti ltj ltc; rewrite /mget /M /= doneG //.
  rewrite -sumn_take_nth ?szs 1?ltnW // -(shape_eg i lti).
  apply: nth_flatten_group; first by rewrite -(size_map size) shape_eg ?szs.
  by rewrite -(nth_map [::] 0%N size) ?shape_eg // -(size_map size) shape_eg ?szs.
Qed.

(** C6.  At the start of the passes of every example, and after the last
    one, every group of the derivative buffers is entirely zero; so row [i]
    of the gradient matrix is what the passes of example [i] leave in
    buffers that were zero: nothing of another example is in it. *)
Theorem der_params_zero_at_each_pass p n_examples mach :
  wf_Parameters p -> keeps_sizes fbprop ->
  [/\ c_der (collect_init p n_examples mach) = zero_params real (size_ p),
      forall i, (i <= n_examples)%N ->
        c_der (collect_upto fbprop p n_examples mach i) = zero_params real (size_ p)
    & forall i, (i < n_examples)%N ->
        nth [::] (Mat_ptr (collect_gradients fbprop p n_examples mach)) i
        = flatten (fbprop i (c_machine (collect_upto fbprop p n_examples mach i))
                     (zero_params real (size_ p))).2].
Proof.
move=> wfp keep; split.
- by rewrite /= clear_der_paramsE.
- by move=> i lei; have [] := collect_upto_inv mach wfp keep lei.
- move=> i lti /=.
  have [_ _ _ ->] // := collect_upto_inv mach wfp keep (leqnn n_examples).
  rewrite /example_gradient.
  by have [-> _ _ _] := collect_upto_inv mach wfp keep (ltnW lti).
Qed.

End CollectFacts.

(** ** Saving the results *)

Section SaveFacts.

Variable real : realFieldType.

Implicit Types (d : Vec real) (V : Mat real) (out : seq (out_item real)).

Lemma for_loop_eq (S : Type) lo hi (body1 body2 : nat -> S -> S) s :
  (forall i t, body1 i t = body2 i t) ->
  for_loop lo hi body1 s = for_loop lo hi body2 s.
Proof.
move=> eq_body; rewrite /for_loop.
by elim: (iota _ _) s => //= i l IH s; rewrite eq_body IH.
Qed.

(** A loop that appends one block per iteration. *)
Lemma for_loop_cat (T : Type) n (f : nat -> seq T) (a : seq T) :
  for_loop 0 n (fun j acc => acc ++ f j) a = a ++ flatten (mkseq f n).
Proof.
elim: n => [|n IH]; first by rewrite for_loop_empty //= cats0.
by rewrite for_loop_last // IH mkseqS flatten_rcons !catA.
Qed.

Lemma mkseq_map_nth (T U : Type) (x0 : T) (g : T -> U) (s : seq T) :
  mkseq (fun j => g (nth x0 s j)) (size s) = [seq g x | x <- s].
Proof. by rewrite -[in RHS](mkseq_nth x0 s) /mkseq -map_comp. Qed.

Lemma write_eigenvalsE d :
  wf_Vec d ->
  write_eigenvals d = flatten [seq [:: Real x; Endl real] | x <- Vec_ptr d].
Proof.
move=> /eqP szd; rewrite /write_eigenvals for_loop_cat /= -szd.
by rewrite (mkseq_map_nth 0 (fun x => [:: Real x; Endl real])).
Qed.

Lemma write_eigenvecsE V :
  wf_Mat V ->
  write_eigenvecs V
  = flatten [seq flatten [seq [:: Real x; Str real " "] | x <- row] ++ [:: Endl real]
            | row <- Mat_ptr V].
Proof.
move=> wfV; have /andP [/eqP szV _] := wfV; rewrite /write_eigenvecs.
rewrite (_ : for_loop _ _ _ _ =
           for_loop 0 (Mat_m V)
             (fun j acc => acc ++ (flatten (mkseq (fun k =>
                [:: Real (mget (Mat_ptr V) j k); Str real " "]) (Mat_n V)) ++ [:: Endl real]))
             [::]); first by apply: for_loop_eq => j acc; rewrite for_loop_cat catA.
rewrite for_loop_cat /= -szV; congr flatten.
rewrite -(mkseq_map_nth [::]
            (fun row => flatten [seq [:: Real x; Str real " "] | x <- row] ++ [:: Endl real])).
apply: mkseq_ext => j ltj; congr (flatten _ ++ _).
rewrite -(mkseq_map_nth 0 (fun x => [:: Real x; Str real " "])).
by rewrite wf_Mat_row // -szV.
Qed.

Lemma lines_from_cat (cur l rest : seq (out_item real)) :
  ~~ has (@is_endl real) l -> lines_from cur (l ++ rest) = lines_from (cur ++ l) rest.
Proof.
elim: l cur => [|x l IH] cur /=; first by rewrite cats0.
by case: x => [x|str|] //= nl; rewrite IH // cat_rcons.
Qed.

Lemma lines_flatten (ls : seq (seq (out_item real))) :
  all (fun l => ~~ has (@is_endl real) l) ls ->
  lines (flatten [seq l ++ [:: Endl real] | l <- ls]) = ls.
Proof.
rewrite /lines; elim: ls => //= l ls IH /andP [nl nls].
by rewrite -catA lines_from_cat //= IH.
Qed.

(** C7.  When both files open, the eigenvalue file holds the sorted
    eigenvalues, each followed by an end of line: exactly [n_params] lines of
    one value, in non-increasing order.  The eigenvector file holds the rows
    of the sorted matrix, each value followed by one space and each row by
    an end of line: exactly [n_params] lines, line [j] made of the
    [n_params] values [V[j][0 .. n_params - 1]]. *)
Theorem saved_files_layout flag_model_label os n_params d V :
  wf_Vec d -> Vec_n d = n_params ->
  wf_Mat V -> Mat_m V = n_params -> Mat_n V = n_params ->
  eigenvals_is_open os -> eigenvecs_is_open os ->
  let d' := (sort_eigen n_params d V).1 in
  let V' := (sort_eigen n_params d V).2 in
  let out := sort_and_save flag_model_label os n_params d V in
  [/\ eigenvals_file out = flatten [seq [:: Real x; Endl real] | x <- Vec_ptr d']
      /\ eigenvecs_file out
         = flatten [seq flatten [seq [:: Real x; Str real " "] | x <- row] ++ [:: Endl real]
                   | row <- Mat_ptr V'],
      lines (eigenvals_file out) = [seq [:: Real x] | x <- Vec_ptr d']
      /\ size (lines (eigenvals_file out)) = n_params,
      forall i, (i.+1 < n_params)%N ->
        nth 0 (Vec_ptr d') i >= nth 0 (Vec_ptr d') i.+1,
      lines (eigenvecs_file out)
      = [seq flatten [seq [:: Real x; Str real " "] | x <- row] | row <- Mat_ptr V']
      /\ size (lines (eigenvecs_file out)) = n_params
    & forall j, (j < n_params)%N ->
        nth [::] (lines (eigenvecs_file out)) j
        = flatten (mkseq (fun k => [:: Real (mget (Mat_ptr V') j k); Str real " "]) n_params)].
Proof.
move=> wfd nd wfV mV nV vals_open vecs_open d' V' out.
have szd : size (Vec_ptr d) = n_params by rewrite (eqP wfd).
have /andP [/eqP szV rowsV] := wfV.
have rowsV' : all (fun row => size row == n_params) (Mat_ptr V) by rewrite -nV.
have [p [perm_p d'E V'E]] := sort_eigen_perm_inv szd rowsV'.
have szp : size p = n_params by rewrite (perm_size perm_p) size_iota.
have szd' : size (Vec_ptr d') = n_params by rewrite /d' d'E /= size_map.
have szV' : size (Mat_ptr V') = n_params by rewrite /V' V'E /= size_map szV.
have wfd' : wf_Vec d' by rewrite /wf_Vec szd' /d' d'E /= nd.
have mV' : Mat_m V' = n_params by rewrite /V' V'E.
have nV' : Mat_n V' = n_params by rewrite /V' V'E.
have wfV' : wf_Mat V'.
  rewrite /wf_Mat szV' mV' nV' eqxx /=.
  by apply/allP => row; rewrite /V' V'E => /mapP [row' _ ->]; rewrite size_map szp.
have outE : out = save_results flag_model_label os d' V'.
  by rewrite /out /sort_and_save /d' /V'; case: (sort_eigen _ _ _).
have valsE : eigenvals_file out = flatten [seq [:: Real x; Endl real] | x <- Vec_ptr d'].
  by rewrite outE /save_results vals_open vecs_open /= write_eigenvalsE.
have vecsE : eigenvecs_file out
    = flatten [seq flatten [seq [:: Real x; Str real " "] | x <- row] ++ [:: Endl real]
              | row <- Mat_ptr V'].
  by rewrite outE /save_results vals_open vecs_open /= write_eigenvecsE.
have vals_lines : lines (eigenvals_file out) = [seq [:: Real x] | x <- Vec_ptr d'].
  rewrite valsE -[RHS]lines_flatten -?map_comp //.
  by rewrite all_map; apply/allP.
have vecs_lines : lines (eigenvecs_file out)
    = [seq flatten [seq [:: Real x; Str real " "] | x <- row] | row <- Mat_ptr V'].
  rewrite vecsE -[RHS]lines_flatten -?map_comp //.
  by rewrite all_map; apply/allP => row _ /=; elim: row.
split=> //.
- by rewrite vals_lines size_map szd'.
- move=> i lti.
  have [_ ord] := @sort_eigen_order_inv _ n_params d V n_params szd (leqnn _).
  by apply: ord; rewrite ?ltnSn ?lti // (ltn_trans _ lti).
- by rewrite vecs_lines size_map szV'.
- move=> j ltj; rewrite vecs_lines (nth_map [::]) ?szV' //.
  rewrite -(mkseq_map_nth 0 (fun x => [:: Real x; Str real " "])).
  have -> // : size (nth [::] (Mat_ptr V') j) = n_params.
  by have /andP [_ /allP rows] := wfV'; rewrite (eqP (rows _ _)) ?mem_nth ?szV' // /V' V'E.
Qed.

(** C8.  The status of the directory creation is never looked at: the save
    does the same whatever it is.  A file that fails to open is fatal, with
    a message that names it, and nothing is sent to a file that failed to
    open. *)
Theorem save_results_failures flag_model_label os d V :
  let out := save_results flag_model_label os d V in
  [/\ forall st,
        save_results flag_model_label
          (mkReplies st (eigenvals_is_open os) (eigenvecs_is_open os)) d V = out,
      commands out = [:: ("mkdir hessian" ++ flag_model_label)%string],
      is_fatal (status out) = ~~ (eigenvals_is_open os && eigenvecs_is_open os),
      ~~ eigenvals_is_open os ->
        [/\ status out = Fatal "Can't open file for eigenvals",
            eigenvals_file out = [::] & eigenvecs_file out = [::]]
    & eigenvals_is_open os -> ~~ eigenvecs_is_open os ->
        [/\ status out = Fatal "Can't open eigenvecs file",
            eigenvals_file out = write_eigenvals d & eigenvecs_file out = [::]]].
Proof. by case: os => st [] []. Qed.

End SaveFacts.

(** ** The small run *)

Section SmallRun.

(** The end-to-end example of the specification: three examples with the
    gradients (1,0), (0,1), (1,1). *)
Example ex_collect :
  Mat_ptr (collect_gradients ex_fbprop ex_der_params 3 tt) = ex_gradients.
Proof. by vm_compute. Qed.

Example ex_mean :
  Vec_ptr (gradient_mean ex_gradients 3 2) = [:: q 2 / q 3; q 2 / q 3].
Proof. by apply/eqP; vm_compute. Qed.

Example ex_centred :
  Mat_ptr ex_centred_M
  = [:: [:: q 1 / q 3; - (q 2 / q 3)]; [:: - (q 2 / q 3); q 1 / q 3];
        [:: q 1 / q 3; q 1 / q 3]].
Proof. by apply/eqP; vm_compute. Qed.

Example ex_covariance :
  Mat_ptr (compute_covariance ex_centred_M 3 2)
  = [:: [:: q 1 / q 3; - (q 1 / q 6)]; [:: - (q 1 / q 6); q 1 / q 3]].
Proof. by apply/eqP; vm_compute. Qed.

Example ex_sorted :
  Vec_ptr (sort_eigen 3 ex_d ex_V).1 = [:: q 3; q 2; q 1]
  /\ Mat_ptr (sort_eigen 3 ex_d ex_V).2
     = [:: [:: q 2; q 3; q 1]; [:: q 5; q 6; q 4]; [:: q 8; q 9; q 7]].
Proof. by split; apply/eqP; vm_compute. Qed.

Lemma ex_fbprop_keeps_sizes : keeps_sizes ex_fbprop.
Proof.
move=> i mach dat; rewrite /ex_fbprop /= -map_comp.
apply: (@eq_from_nth _ 0%N); first by rewrite !size_map size_iota.
move=> j; rewrite size_map size_iota => ltj.
by rewrite (nth_map 0%N) ?size_iota // nth_iota //= size_map add0n (nth_map [::]).
Qed.

Lemma sort_eigen_same_permutation_witness :
  [/\ wf_Vec ex_d, Vec_n ex_d = 3%N, wf_Mat ex_V & Mat_n ex_V = 3%N] /\
  exists p : seq nat,
    [/\ perm_eq p (iota 0 3),
        wf_Vec (sort_eigen 3 ex_d ex_V).1 /\ Vec_n (sort_eigen 3 ex_d ex_V).1 = 3%N,
        [/\ wf_Mat (sort_eigen 3 ex_d ex_V).2,
            Mat_m (sort_eigen 3 ex_d ex_V).2 = Mat_m ex_V
          & Mat_n (sort_eigen 3 ex_d ex_V).2 = 3%N],
        forall i, (i < 3)%N ->
          nth 0 (Vec_ptr (sort_eigen 3 ex_d ex_V).1) i
          = nth 0 (Vec_ptr ex_d) (nth 0%N p i)
      & forall i, (i < 3)%N ->
          column (Mat_ptr (sort_eigen 3 ex_d ex_V).2) i
          = column (Mat_ptr ex_V) (nth 0%N p i)].
Proof. by split; [|apply: sort_eigen_same_permutation]. Defined.

Lemma sort_eigen_nonincreasing_witness :
  [/\ wf_Vec ex_d, Vec_n ex_d = 3%N & (1 < 3)%N] /\
  nth 0 (Vec_ptr (sort_eigen 3 ex_d ex_V).1) 0
  >= nth 0 (Vec_ptr (sort_eigen 3 ex_d ex_V).1) 1.
Proof. by split; [|apply: sort_eigen_nonincreasing]. Defined.

Lemma compute_covariance_correct_witness :
  [/\ wf_Mat ex_centred_M, Mat_m ex_centred_M = 3%N, Mat_n ex_centred_M = 2%N & (2 <= 3)%N] /\
  let C := compute_covariance ex_centred_M 3 2 in
  [/\ [/\ wf_Mat C, Mat_m C = 2%N & Mat_n C = 2%N],
      forall i j, (i < 2)%N -> (j < 2)%N ->
        mget (Mat_ptr C) i j
        = (\sum_(0 <= k < 3) mget (Mat_ptr ex_centred_M) k i * mget (Mat_ptr ex_centred_M) k j)
          / (3%:R - 1)
    & forall i j, (i < 2)%N -> (j < 2)%N ->
        mget (Mat_ptr C) i j = mget (Mat_ptr C) j i].
Proof.
have wfc : wf_Mat ex_centred_M by vm_compute.
by split; [|apply: compute_covariance_correct].
Defined.

Lemma center_gradients_correct_witness :
  [/\ wf_Mat ex_M, Mat_m ex_M = 3%N, Mat_n ex_M = 2%N & (1 <= 3)%N] /\
  let mean := gradient_mean (Mat_ptr ex_M) 3 2 in
  let M' := center_gradients ex_M 3 2 in
  [/\ wf_Vec mean /\ Vec_n mean = 2%N,
      forall j, (j < 2)%N ->
        nth 0 (Vec_ptr mean) j = 3%:R^-1 * \sum_(0 <= i < 3) mget (Mat_ptr ex_M) i j,
      [/\ wf_Mat M', Mat_m M' = 3%N & Mat_n M' = 2%N],
      forall i j, (i < 3)%N -> (j < 2)%N ->
        mget (Mat_ptr M') i j = mget (Mat_ptr ex_M) i j - nth 0 (Vec_ptr mean) j
    & Vec_ptr (gradient_mean (Mat_ptr M') 3 2) = nseq 2 0].
Proof. by split; [|apply: center_gradients_correct]. Defined.

Lemma mean_norm2_correct_witness :
  [/\ wf_Mat ex_M, Mat_m ex_M = 3%N, Mat_n ex_M = 2%N & (1 <= 3)%N] /\
  mean_norm2 (Mat_ptr ex_M) 3 2
  = 3%:R^-1 * \sum_(row <- Mat_ptr ex_M) \sum_(x <- row) x ^+ 2.
Proof. by split; [|apply: mean_norm2_correct]. Defined.

Lemma collect_gradients_layout_witness :
  wf_Parameters ex_der_params /\
  let M := collect_gradients ex_fbprop ex_der_params 3 tt in
  let P := (\sum_(0 <= j < 2) nth 0 (size_ ex_der_params) j)%N in
  [/\ count_params ex_der_params = P,
      [/\ wf_Mat (Mat_new rat 3 (count_params ex_der_params)),
          Mat_m (Mat_new rat 3 (count_params ex_der_params)) = 3%N
        & Mat_n (Mat_new rat 3 (count_params ex_der_params)) = P],
      [/\ wf_Mat M, Mat_m M = 3%N & Mat_n M = P],
      forall i, (i < 3)%N ->
        nth [::] (Mat_ptr M) i = flatten (example_gradient ex_fbprop ex_der_params 3 tt i)
    & forall i j c, (i < 3)%N -> (j < 2)%N -> (c < nth 0 (size_ ex_der_params) j)%N ->
        mget (Mat_ptr M) i ((\sum_(0 <= k < j) nth 0 (size_ ex_der_params) k)%N + c)
        = nth 0 (nth [::] (example_gradient ex_fbprop ex_der_params 3 tt i) j) c].
Proof.
split; first by [].
exact: (@collect_gradients_layout _ _ ex_fbprop ex_der_params 3 tt isT ex_fbprop_keeps_sizes).
Defined.

Lemma der_params_zero_at_each_pass_witness :
  wf_Parameters ex_der_params /\
  [/\ c_der (collect_init ex_der_params 3 tt) = zero_params rat (size_ ex_der_params),
      forall i, (i <= 3)%N ->
        c_der (collect_upto ex_fbprop ex_der_params 3 tt i)
        = zero_params rat (size_ ex_der_params)
    & forall i, (i < 3)%N ->
        nth [::] (Mat_ptr (collect_gradients ex_fbprop ex_der_params 3 tt)) i
        = flatten (ex_fbprop i (c_machine (collect_upto ex_fbprop ex_der_params 3 tt i))
                     (zero_params rat (size_ ex_der_params))).2].
Proof.
split; first by [].
exact: (@der_params_zero_at_each_pass _ _ ex_fbprop ex_der_params 3 tt isT
          ex_fbprop_keeps_sizes).
Defined.

Lemma saved_files_layout_witness :
  [/\ wf_Vec ex_d /\ Vec_n ex_d = 3%N,
      [/\ wf_Mat ex_V, Mat_m ex_V = 3%N & Mat_n ex_V = 3%N],
      eigenvals_is_open ex_os & eigenvecs_is_open ex_os] /\
  let d' := (sort_eigen 3 ex_d ex_V).1 in
  let V' := (sort_eigen 3 ex_d ex_V).2 in
  let out := sort_and_save "" ex_os 3 ex_d ex_V in
  [/\ eigenvals_file out = flatten [seq [:: Real x; Endl rat] | x <- Vec_ptr d']
      /\ eigenvecs_file out
         = flatten [seq flatten [seq [:: Real x; Str rat " "] | x <- row] ++ [:: Endl rat]
                   | row <- Mat_ptr V'],
      lines (eigenvals_file out) = [seq [:: Real x] | x <- Vec_ptr d']
      /\ size (lines (eigenvals_file out)) = 3%N,
      forall i, (i.+1 < 3)%N ->
        nth 0 (Vec_ptr d') i >= nth 0 (Vec_ptr d') i.+1,
      lines (eigenvecs_file out)
      = [seq flatten [seq [:: Real x; Str rat " "] | x <- row] | row <- Mat_ptr V']
      /\ size (lines (eigenvecs_file out)) = 3%N
    & forall j, (j < 3)%N ->
        nth [::] (lines (eigenvecs_file out)) j
        = flatten (mkseq (fun k => [:: Real (mget (Mat_ptr V') j k); Str rat " "]) 3)].
Proof. by split; [|apply: saved_files_layout]. Defined.

Lemma save_results_failures_witness :
  let os := mkReplies 1 true false in
  let out := save_results "" os ex_d ex_V in
  [/\ forall st,
        save_results "" (mkReplies st (eigenvals_is_open os) (eigenvecs_is_open os))
          ex_d ex_V = out,
      commands out = [:: ("mkdir hessian" ++ "")%string],
      is_fatal (status out) = ~~ (eigenvals_is_open os && eigenvecs_is_open os),
      ~~ eigenvals_is_open os ->
        [/\ status out = Fatal "Can't open file for eigenvals",
            eigenvals_file out = [::] & eigenvecs_file out = [::]]
    & eigenvals_is_open os -> ~~ eigenvecs_is_open os ->
        [/\ status out = Fatal "Can't open eigenvecs file",
            eigenvals_file out = write_eigenvals ex_d & eigenvecs_file out = [::]]].
Proof. exact: save_results_failures. Defined.

End SmallRun.

(** * Further properties of the sort *)

Section SortMore.

Variable real : realFieldType.

Implicit Types (d : Vec real) (V : Mat real) (p : seq nat) (s : seq real).

Lemma geR_trans : transitive (fun x y : real => y <= x).
Proof. by move=> y x z /= le_yx le_zy; apply: le_trans le_yx. Qed.

Lemma geR_anti : antisymmetric (fun x y : real => y <= x).
Proof. by move=> x y; rewrite andbC => /le_anti. Qed.

Lemma geR_total : total (fun x y : real => y <= x).
Proof. by move=> x y /=; rewrite le_total. Qed.

(** The search keeps the first of several largest entries: every entry
    before the position it returns is strictly smaller. *)
Theorem max_search_first n_params s i :
  (i < n_params)%N ->
  let mi := (max_search n_params s i).1 in
  let mv := (max_search n_params s i).2 in
  [/\ (i <= mi < n_params)%N, mv = nth 0 s mi,
      forall k, (i <= k < n_params)%N -> nth 0 s k <= mv
    & forall k, (i <= k < mi)%N -> nth 0 s k < mv].
Proof.
move=> lti /=; have [mvE bounds maxP] := max_searchP s lti; split=> //.
suff [] : [/\ ((max_search n_params s i).1 < n_params)%N,
              forall k, (i <= k < n_params)%N -> nth 0 s k <= (max_search n_params s i).2
            & forall k, (i <= k < (max_search n_params s i).1)%N ->
                nth 0 s k < (max_search n_params s i).2] by [].
rewrite /max_search.
apply: (@for_loop_inv _ (fun j acc =>
          [/\ (acc.1 < j)%N, forall k, (i <= k < j)%N -> nth 0 s k <= acc.2
            & forall k, (i <= k < acc.1)%N -> nth 0 s k < acc.2])) => //=.
  split=> // k; first by rewrite ltnS -eqn_leq => /eqP <-.
  by case/andP => leik ltki; move: (leq_ltn_trans leik ltki); rewrite ltnn.
move=> j [mi mv] /= /andP [ltij ltjn] [lt_mi_j maxj firstj].
have maxj' mv' : mv <= mv' -> nth 0 s j <= mv' ->
    forall k, (i <= k < j.+1)%N -> nth 0 s k <= mv'.
  move=> le_mv le_j k /andP [leik]; rewrite ltnS leq_eqVlt => /orP [/eqP -> //|ltkj].
  by apply: le_trans le_mv; apply: maxj; rewrite leik.
case: ifP => [lt_mv|ge_mv]; split=> //=.
- exact: maxj' (ltW lt_mv) (lexx _).
- by move=> k ltk; apply: le_lt_trans lt_mv; apply: maxj.
- exact: ltn_trans lt_mi_j (ltnSn j).
- by apply: maxj' => //; rewrite leNgt ge_mv.
Qed.

(** When entry [i] is at least as large as every later one, the search
    stays at [i]. *)
Lemma max_search_stay n_params s i :
  (forall k, (i < k < n_params)%N -> nth 0 s k <= nth 0 s i) ->
  max_search n_params s i = (i, nth 0 s i).
Proof.
move=> domi; rewrite /max_search.
case: (leqP n_params i) => [leni|ltin].
  by rewrite for_loop_empty // (leq_trans leni).
apply: (@for_loop_inv _ (fun j acc => acc = (i, nth 0 s i))) => //.
move=> j acc /andP [ltij ltjn] ->.
by rewrite ltNge domi // ltij.
Qed.

Lemma swap_entries_same (T : Type) (x0 : T) (l : seq T) i :
  (i < size l)%N -> swap_entries x0 l i i = l.
Proof. by move=> lti; rewrite /swap_entries !set_nth_id // set_nth_id. Qed.

(** The loop behind [sort_eigen] leaves a state alone whose eigenvalues are
    pairwise in non-increasing order. *)
Lemma sort_eigen_pairwise_id n_params d V :
  size (Vec_ptr d) = n_params ->
  all (fun row => size row == n_params) (Mat_ptr V) ->
  (forall a b, (a < b < n_params)%N -> nth 0 (Vec_ptr d) b <= nth 0 (Vec_ptr d) a) ->
  sort_eigen n_params d V = (d, V).
Proof.
move=> szd /allP rowsV ord; rewrite /sort_eigen.
apply: (@for_loop_inv _ (fun (i : nat) (st : Vec real * Mat real) => st = (d, V))) => //.
move=> i st /= lti ->.
have stay : max_search n_params (Vec_ptr d) i = (i, nth 0 (Vec_ptr d) i).
  by apply: max_search_stay => k ltk; apply: ord.
rewrite sort_stepE // stay /=.
rewrite swap_entries_same ?szd //.
have -> : [seq swap_entries 0 row i i | row <- Mat_ptr V] = Mat_ptr V.
  rewrite -[RHS]map_id; apply/eq_in_map => row /rowsV /eqP szrow.
  by rewrite swap_entries_same ?szrow.
by case: d {szd ord stay} => nd sd; case: V {rowsV} => mV nV rows.
Qed.

(** The sort leaves eigenpairs alone that are already in non-increasing
    order: neither the eigenvalues nor the eigenvector matrix change. *)
Theorem sort_eigen_sorted_id n_params d V :
  wf_Vec d -> Vec_n d = n_params -> wf_Mat V -> Mat_n V = n_params ->
  sorted (fun x y : real => y <= x) (Vec_ptr d) ->
  sort_eigen n_params d V = (d, V).
Proof.
move=> /eqP wfd nd /andP [_ rowsV] nV sorted_d.
have szd : size (Vec_ptr d) = n_params by rewrite wfd.
apply: sort_eigen_pairwise_id => //; first by rewrite -nV.
move=> a b /andP [ltab ltbn].
apply: (sorted_ltn_nth geR_trans 0 sorted_d) => //; rewrite inE szd //.
exact: ltn_trans ltab ltbn.
Qed.

(** Sorting twice is sorting once. *)
Theorem sort_eigen_idempotent n_params d V :
  wf_Vec d -> Vec_n d = n_params -> wf_Mat V -> Mat_n V = n_params ->
  sort_eigen n_params (sort_eigen n_params d V).1 (sort_eigen n_params d V).2
  = sort_eigen n_params d V.
Proof.
move=> /eqP wfd nd /andP [_ rowsV] nV.
have szd : size (Vec_ptr d) = n_params by rewrite wfd.
have rowsV' : all (fun row => size row == n_params) (Mat_ptr V) by rewrite -nV.
have [szd' ord] := @sort_eigen_order_inv _ n_params d V n_params szd (leqnn _).
have [p [perm_p _ V'E]] := sort_eigen_perm_inv szd rowsV'.
have szp : size p = n_params by rewrite (perm_size perm_p) size_iota.
rewrite [RHS]surjective_pairing; apply: sort_eigen_pairwise_id => //.
  by rewrite V'E /=; apply/allP => row /mapP [row' _ ->]; rewrite size_map szp.
by move=> a b /andP [ltab ltbn]; apply: ord; rewrite ?ltab // (ltn_trans ltab).
Qed.

(** The eigenvalues are only exchanged, whatever the matrix. *)
Lemma sort_eigen_perm_d n_params d V :
  size (Vec_ptr d) = n_params ->
  perm_eq (Vec_ptr (sort_eigen n_params d V).1) (Vec_ptr d).
Proof.
move=> szd; rewrite /sort_eigen.
suff [] : size (Vec_ptr (for_loop 0 n_params (sort_step n_params) (d, V)).1) = n_params
          /\ perm_eq (Vec_ptr (for_loop 0 n_params (sort_step n_params) (d, V)).1) (Vec_ptr d).
  by [].
apply: (@for_loop_inv _ (fun (i : nat) (st : Vec real * Mat real) =>
          size (Vec_ptr st.1) = n_params /\ perm_eq (Vec_ptr st.1) (Vec_ptr d))) => //.
move=> i [d1 V1] lti [sz1 perm1]; rewrite /= in lti sz1 perm1.
have [_ /andP [_ ltmi] _] := max_searchP (Vec_ptr d1) lti.
rewrite sort_stepE //=; split; first by rewrite size_swap_entries ?sz1.
by apply: perm_trans perm1; apply: perm_swap_entries; rewrite sz1.
Qed.

(** The sorted eigenvalues are those a merge sort for the order [>=]
    produces. *)
Theorem sort_eigen_reference n_params d V :
  wf_Vec d -> Vec_n d = n_params ->
  Vec_ptr (sort_eigen n_params d V).1 = sort (fun x y : real => y <= x) (Vec_ptr d).
Proof.
move=> /eqP wfd nd.
have szd : size (Vec_ptr d) = n_params by rewrite wfd.
have [szd' ord] := @sort_eigen_order_inv _ n_params d V n_params szd (leqnn _).
apply: (sorted_eq geR_trans geR_anti).
- apply/(sortedP 0) => i; rewrite szd' => lti.
  by apply: ord; rewrite ?ltnSn ?lti // (ltn_trans _ lti).
- exact: (sort_sorted geR_total).
- by rewrite perm_sym perm_sort perm_sym; apply: sort_eigen_perm_d.
Qed.

(** The permutation the sort applies is chosen from the eigenvalues alone:
    one [p], fixed by [d], describes the outcome for every matrix [V]. *)
Theorem sort_eigen_perm_uniform n_params d :
  wf_Vec d -> Vec_n d = n_params ->
  exists p : seq nat,
    perm_eq p (iota 0 n_params) /\
    forall V, wf_Mat V -> Mat_n V = n_params ->
      sort_eigen n_params d V
      = (mkVec n_params [seq nth 0 (Vec_ptr d) k | k <- p],
         mkMat (Mat_m V) n_params [seq [seq nth 0 row k | k <- p] | row <- Mat_ptr V]).
Proof.
move=> /eqP wfd nd; have szd : size (Vec_ptr d) = n_params by rewrite wfd.
suff loop : forall i, (i <= n_params)%N ->
    exists p : seq nat,
      perm_eq p (iota 0 n_params) /\
      forall V, wf_Mat V -> Mat_n V = n_params ->
        for_loop 0 i (sort_step n_params) (d, V)
        = (mkVec n_params [seq nth 0 (Vec_ptr d) k | k <- p],
           mkMat (Mat_m V) n_params
             [seq [seq nth 0 row k | k <- p] | row <- Mat_ptr V]).
  have [p [perm_p sortE]] := loop n_params (leqnn _).
  by exists p; split=> // V wfV nV; rewrite /sort_eigen sortE.
elim=> [_|i IH lti].
  exists (iota 0 n_params); split=> // V /andP [_ /allP rowsV] nV.
  rewrite for_loop_empty //; case: d wfd nd szd => n s /= _ -> szs.
  case: V rowsV nV => m n' rows /= rowsV eqn'; rewrite eqn' in rowsV *.
  congr (mkVec _ _, mkMat _ _ _).
    by rewrite -szs -/(mkseq _ _) mkseq_nth.
  rewrite -[LHS]map_id; apply/eq_in_map => row /rowsV /eqP <-.
  by rewrite -/(mkseq _ _) mkseq_nth.
have [p [perm_p loopE]] := IH (ltnW lti).
have szp : size p = n_params by rewrite (perm_size perm_p) size_iota.
pose mi := (max_search n_params [seq nth 0 (Vec_ptr d) k | k <- p] i).1.
have ltmi : (mi < n_params)%N.
  have := @max_searchP _ n_params [seq nth 0 (Vec_ptr d) k | k <- p] i lti.
  by case=> _ /andP [_ ltmi] _.
exists (swap_entries 0%N p i mi); split.
  by apply: perm_trans perm_p; apply: perm_swap_entries; rewrite szp.
move=> V wfV nV; rewrite for_loop_last // loopE // sort_stepE //= ?size_map //.
rewrite -/mi (@swap_entries_map _ _ 0%N) ?szp //; congr (_, mkMat _ _ _).
rewrite -map_comp; apply: eq_map => row /=.
by rewrite (@swap_entries_map _ _ 0%N) ?szp.
Qed.

(** Whatever relates each eigenvalue to its eigenvector column before the
    sort relates each eigenvalue to its column after it. *)
Lemma sort_eigen_pairs n_params d V (R : real -> seq real -> Prop) :
  wf_Vec d -> Vec_n d = n_params -> wf_Mat V -> Mat_n V = n_params ->
  (forall j, (j < n_params)%N -> R (nth 0 (Vec_ptr d) j) (column (Mat_ptr V) j)) ->
  forall i, (i < n_params)%N ->
    R (nth 0 (Vec_ptr (sort_eigen n_params d V).1) i)
      (column (Mat_ptr (sort_eigen n_params d V).2) i).
Proof.
move=> /eqP wfd nd /andP [_ rowsV] nV pairs i lti.
have szd : size (Vec_ptr d) = n_params by rewrite wfd.
have rowsV' : all (fun row => size row == n_params) (Mat_ptr V) by rewrite -nV.
have [p [perm_p -> ->]] := sort_eigen_perm_inv szd rowsV'.
have szp : size p = n_params by rewrite (perm_size perm_p) size_iota.
have ltpi : (nth 0%N p i < n_params)%N.
  have : nth 0%N p i \in iota 0 n_params by rewrite -(perm_mem perm_p) mem_nth ?szp.
  by rewrite mem_iota add0n.
rewrite /= (nth_map 0%N) ?szp //.
have -> : column [seq [seq nth 0 row k | k <- p] | row <- Mat_ptr V] i
          = column (Mat_ptr V) (nth 0%N p i).
  rewrite /column -map_comp; apply: eq_map => row /=.
  by rewrite (nth_map 0%N) ?szp.
exact: pairs.
Qed.

(** The sort keeps eigenpairs together: if every eigenvalue and its column
    satisfy the eigen-equation of a matrix before the sort, they do after
    it. *)
Theorem sort_eigen_eigenpairs n_params (C : seq (seq real)) d V :
  wf_Vec d -> Vec_n d = n_params ->
  wf_Mat V -> Mat_m V = n_params -> Mat_n V = n_params ->
  (forall j, (j < n_params)%N ->
     eigen_equation C n_params (nth 0 (Vec_ptr d) j) (column (Mat_ptr V) j)) ->
  forall i, (i < n_params)%N ->
    eigen_equation C n_params
      (nth 0 (Vec_ptr (sort_eigen n_params d V).1) i)
      (column (Mat_ptr (sort_eigen n_params d V).2) i).
Proof.
move=> wfd nd wfV _ nV eigen i lti.
exact: (@sort_eigen_pairs n_params d V
          (fun lambda v => eigen_equation C n_params lambda v)).
Qed.

End SortMore.

(** * The progress indicator *)

Section ProgressFacts.

Variable real : realFieldType.
Variable machine : Type.
Variable fbprop : nat -> machine -> seq (seq real) -> machine * seq (seq real).

Implicit Types (p : Parameters real) (mach : machine).





End ProgressFacts.

(** * Further properties of the mean and of the centring *)

Section CenterMore.

Variable real : realFieldType.

Implicit Types (G : seq (seq real)) (M : Mat real).









End CenterMore.

(** * Fewer examples *)

Section CollectMore.

Variable real : realFieldType.
Variable machine : Type.
Variable fbprop : nat -> machine -> seq (seq real) -> machine * seq (seq real).

Implicit Types (p : Parameters real) (mach : machine).

Lemma collect_step_machine p n_examples i (s : collector real machine) :
  c_machine (collect_step fbprop p n_examples i s)
  = (fbprop i (c_machine s) (c_der s)).1.
Proof.
rewrite /collect_step; case: (fbprop i _ _) => mach' der.
by case: (save_gradient _ _ _) => [[row off] der'].
Qed.

(** The passes see the same state whatever the number of examples that
    will follow. *)
Lemma collect_upto_machine p n1 n2 mach i :
  wf_Parameters p -> keeps_sizes fbprop -> (i <= n1)%N -> (i <= n2)%N ->
  c_machine (collect_upto fbprop p n1 mach i)
  = c_machine (collect_upto fbprop p n2 mach i).
Proof.
move=> wfp keep; elim: i => [_ _|i IH lt1 lt2].
  by rewrite /collect_upto !for_loop_empty.
rewrite !collect_uptoS !collect_step_machine IH ?(ltnW lt1) ?(ltnW lt2) //.
have [-> _ _ _] := collect_upto_inv mach wfp keep (ltnW lt1).
by have [-> _ _ _] := collect_upto_inv mach wfp keep (ltnW lt2).
Qed.

(** Processing only the first [n1] examples gives the first [n1] rows of
    the gradient matrix of the whole data. *)
Theorem collect_gradients_prefix p n1 n2 mach :
  wf_Parameters p -> keeps_sizes fbprop -> (n1 <= n2)%N ->
  Mat_ptr (collect_gradients fbprop p n1 mach)
  = take n1 (Mat_ptr (collect_gradients fbprop p n2 mach)).
Proof.
move=> wfp keep le12 /=.
have [der1 sz1 _ done1] := collect_upto_inv mach wfp keep (leqnn n1).
have [der2 sz2 _ done2] := collect_upto_inv mach wfp keep (leqnn n2).
apply: (@eq_from_nth _ [::]); first by rewrite size_take sz1 sz2; case: ltngtP le12.
move=> i; rewrite sz1 => lti; rewrite nth_take // done1 // done2 ?(leq_trans lti) //.
rewrite /example_gradient (collect_upto_machine mach wfp keep (ltnW lti)
                             (ltnW (leq_trans lti le12))).
have [-> _ _ _] := collect_upto_inv mach wfp keep (ltnW lti).
by have [-> _ _ _] := collect_upto_inv mach wfp keep (ltnW (leq_trans lti le12)).
Qed.

(** The loop over the data as a fold: the passes run once per example, in
    the order of the examples, each on zeroed buffers and on the state the
    previous example left; row [i] is the concatenation of the groups that
    the passes of example [i] produce. *)
Theorem collect_gradients_fold p n_examples mach :
  wf_Parameters p -> keeps_sizes fbprop ->
  let zero := zero_params real (size_ p) in
  let state k := foldl (fun m j => (fbprop j m zero).1) mach (iota 0 k) in
  c_machine (collect_upto fbprop p n_examples mach n_examples) = state n_examples
  /\ Mat_ptr (collect_gradients fbprop p n_examples mach)
     = [seq flatten (fbprop i (state i) zero).2 | i <- iota 0 n_examples].
Proof.
move=> wfp keep zero state.
have stateE i : (i <= n_examples)%N ->
    c_machine (collect_upto fbprop p n_examples mach i) = state i.
  elim: i => [_|i IH lti]; first by rewrite /collect_upto for_loop_empty.
  rewrite collect_uptoS collect_step_machine IH ?(ltnW lti) //.
  have [-> _ _ _] := collect_upto_inv mach wfp keep (ltnW lti).
  by rewrite /state -addn1 iotaD foldl_cat /= add0n.
split; first exact: stateE.
have [_ szG _ doneG] := collect_upto_inv mach wfp keep (leqnn n_examples).
apply: (@eq_from_nth _ [::]); first by rewrite /= szG size_map size_iota.
move=> i; rewrite /= szG => lti.
rewrite doneG // (nth_map 0%N) ?size_iota // nth_iota // add0n /example_gradient.
rewrite stateE ?(ltnW lti) //.
by have [-> _ _ _] := collect_upto_inv mach wfp keep (ltnW lti).
Qed.

End CollectMore.

(** * More of the small run *)

Section SmallRunMore.

Lemma max_search_first_witness :
  (0 < 3)%N /\
  let mi := (max_search 3 [:: q 2; q 5; q 5] 0).1 in
  let mv := (max_search 3 [:: q 2; q 5; q 5] 0).2 in
  [/\ (0 <= mi < 3)%N, mv = nth 0 [:: q 2; q 5; q 5] mi,
      forall k, (0 <= k < 3)%N -> nth 0 [:: q 2; q 5; q 5] k <= mv
    & forall k, (0 <= k < mi)%N -> nth 0 [:: q 2; q 5; q 5] k < mv].
Proof. by split; [|apply: max_search_first]. Defined.

Lemma sort_eigen_sorted_id_witness :
  [/\ wf_Vec ex_d_sorted, Vec_n ex_d_sorted = 3%N, wf_Mat ex_V, Mat_n ex_V = 3%N
    & sorted (fun x y : rat => y <= x) (Vec_ptr ex_d_sorted)] /\
  sort_eigen 3 ex_d_sorted ex_V = (ex_d_sorted, ex_V).
Proof.
have sorted_d : sorted (fun x y : rat => y <= x) (Vec_ptr ex_d_sorted) by vm_compute.
by split; [|apply: sort_eigen_sorted_id].
Defined.

Lemma sort_eigen_idempotent_witness :
  [/\ wf_Vec ex_d, Vec_n ex_d = 3%N, wf_Mat ex_V & Mat_n ex_V = 3%N] /\
  sort_eigen 3 (sort_eigen 3 ex_d ex_V).1 (sort_eigen 3 ex_d ex_V).2
  = sort_eigen 3 ex_d ex_V.
Proof. by split; [|apply: sort_eigen_idempotent]. Defined.

Lemma sort_eigen_reference_witness :
  (wf_Vec ex_d /\ Vec_n ex_d = 3%N) /\
  Vec_ptr (sort_eigen 3 ex_d ex_V).1 = sort (fun x y : rat => y <= x) (Vec_ptr ex_d).
Proof. by split; [|apply: sort_eigen_reference]. Defined.

Lemma sort_eigen_perm_uniform_witness :
  (wf_Vec ex_d /\ Vec_n ex_d = 3%N) /\
  exists p : seq nat,
    perm_eq p (iota 0 3) /\
    forall V, wf_Mat V -> Mat_n V = 3%N ->
      sort_eigen 3 ex_d V
      = (mkVec 3 [seq nth 0 (Vec_ptr ex_d) k | k <- p],
         mkMat (Mat_m V) 3 [seq [seq nth 0 row k | k <- p] | row <- Mat_ptr V]).
Proof. by split; [|apply: sort_eigen_perm_uniform]. Defined.

Lemma ex_eigenpairs j :
  (j < 3)%N -> eigen_equation ex_C 3 (nth 0 (Vec_ptr ex_d) j) (column (Mat_ptr ex_I) j).
Proof. by case: j => [|[|[|j]]] // _; vm_compute. Qed.

Lemma sort_eigen_eigenpairs_witness :
  [/\ wf_Vec ex_d, Vec_n ex_d = 3%N, wf_Mat ex_I, Mat_m ex_I = 3%N & Mat_n ex_I = 3%N] /\
  forall i, (i < 3)%N ->
    eigen_equation ex_C 3
      (nth 0 (Vec_ptr (sort_eigen 3 ex_d ex_I).1) i)
      (column (Mat_ptr (sort_eigen 3 ex_d ex_I).2) i).
Proof.
split; first by [].
exact: (@sort_eigen_eigenpairs _ 3 ex_C ex_d ex_I isT erefl isT erefl erefl ex_eigenpairs).
Defined.






Lemma collect_gradients_prefix_witness :
  (wf_Parameters ex_der_params /\ (2 <= 3)%N) /\
  Mat_ptr (collect_gradients ex_fbprop ex_der_params 2 tt)
  = take 2 (Mat_ptr (collect_gradients ex_fbprop ex_der_params 3 tt)).
Proof.
split; first by [].
exact: (@collect_gradients_prefix _ _ ex_fbprop ex_der_params 2 3 tt isT
          ex_fbprop_keeps_sizes isT).
Defined.

Lemma collect_gradients_fold_witness :
  wf_Parameters ex_der_params /\
  let zero := zero_params rat (size_ ex_der_params) in
  let state k := foldl (fun m j => (ex_fbprop j m zero).1) tt (iota 0 k) in
  c_machine (collect_upto ex_fbprop ex_der_params 3 tt 3) = state 3%N
  /\ Mat_ptr (collect_gradients ex_fbprop ex_der_params 3 tt)
     = [seq flatten (ex_fbprop i (state i) zero).2 | i <- iota 0 3].
Proof.
split; first by [].
exact: (@collect_gradients_fold _ _ ex_fbprop ex_der_params 3 tt isT ex_fbprop_keeps_sizes).
Defined.

End SmallRunMore.
